(** * Section classifier and progressive downloader of src/App.tsx

    A shallow embedding of [sortFilesIntoSections] and [handleDownload]
    together with the host operations they rely on (Array.prototype.sort,
    the default string comparison, binary64 Number arithmetic). *)

From Stdlib Require Import ZArith Lia List Permutation Sorted Ascii String.
From Stdlib Require Import Strings.Byte.
From Stdlib Require Import Floats.SpecFloat.
From stdpp Require Import gmap strings list sorting.

Local Open Scope string_scope.
Local Open Scope list_scope.
Local Open Scope Z_scope.

(** ** Host operations used by the classifier *)

Module JS.

Section ArraySort.
Context {A : Type} (comparefn : A -> A -> Z).

(** [x] goes in front of the first element it does not exceed, hence in
    front of the elements it ties with. *)
Fixpoint insert (x : A) (l : list A) : list A :=
  match l with
  | [] => [x]
  | y :: l' => if comparefn x y <=? 0 then x :: l else y :: insert x l'
  end.

(** Array.prototype.sort(comparefn).  ECMAScript fixes the result for a
    consistent comparator: the ascending arrangement in which elements
    that compare equal keep their input order.  Insertion from the right
    computes that arrangement. *)
Definition sort (l : list A) : list A := foldr insert [] l.

(** The order a comparator stands for. *)
Definition le_by : relation A := fun a b => comparefn a b <= 0.
End ArraySort.

(** Comparison used by [sort()] without an argument on strings: code
    units are compared from the left, a proper prefix comes first. *)
Definition defaultCompare (x y : string) : Z :=
  match String.compare x y with
  | Lt => -1
  | Eq => 0
  | Gt => 1
  end.

(** What ECMAScript asks of a comparator for [sort] to be determined. *)
Record consistent {A : Type} (cmp : A -> A -> Z) : Prop := {
  cmp_refl : forall a, cmp a a = 0;
  cmp_flip : forall a b, cmp a b < 0 <-> 0 < cmp b a;
  cmp_trans : forall a b c, cmp a b <= 0 -> cmp b c <= 0 -> cmp a c <= 0
}.

Definition is_lower (c : ascii) : bool :=
  ((97 <=? N_of_ascii c) && (N_of_ascii c <=? 122))%N.

Definition upper_char (c : ascii) : ascii :=
  if is_lower c then ascii_of_N (N_of_ascii c - 32) else c.

(** String.prototype.toUpperCase on the letters a-z; the classifier only
    applies it to two such letters. *)
Fixpoint toUpperCase (s : string) : string :=
  match s with
  | EmptyString => EmptyString
  | String c s' => String (upper_char c) (toUpperCase s')
  end.

(** A string is falsy exactly when it is empty. *)
Definition truthy (s : string) : bool :=
  match s with
  | EmptyString => false
  | String _ _ => true
  end.

End JS.

(** ** Data model *)

Record S3Object := mkS3Object {
  Key : option string;
  Size : option Z;
  LastModified : option Z
}.

Record FileSection := mkFileSection {
  prefix : string;
  displayName : string;
  files : list S3Object
}.

#[global] Instance S3Object_eq_dec : EqDecision S3Object.
Proof. solve_decision. Defined.

#[global] Instance FileSection_eq_dec : EqDecision FileSection.
Proof. solve_decision. Defined.

(** ** The classifier *)

Module Classifier.
Import JS.

(** [file.Key.match(/^([a-z]{2})-/)]: the captured two letters. *)
Definition match_prefix (k : string) : option string :=
  match k with
  | String a (String b (String c _)) =>
      if is_lower a && is_lower b && Ascii.eqb c "-"
      then Some (String a (String b EmptyString))
      else None
  | _ => None
  end.

(** [a.Key || ''] *)
Definition key_or_empty (a : S3Object) : string :=
  match Key a with
  | Some k => if truthy k then k else ""
  | None => ""
  end.

(** State of the first loop: the [sections] object and the [unsorted]
    array. *)
Definition groups : Type := gmap string (list S3Object) * list S3Object.

(** Body of [files.forEach]. *)
Definition forEach_body (st : groups) (file : S3Object) : groups :=
  match Key file with
  | None => st
  | Some k =>
      if truthy k then
        match match_prefix k with
        | Some p =>
            let sections :=
              match st.1 !! p with
              | Some _ => st.1
              | None => <[p := []]> st.1
              end in
            (alter (fun fs => fs ++ [file]) p sections, st.2)
        | None => (st.1, st.2 ++ [file])
        end
      else st
  end.

Definition group_files (fs : list S3Object) : groups :=
  fold_left forEach_body fs (∅, []).

(** [Object.keys(sections)]: the own keys, each once. *)
Definition Object_keys (sections : gmap string (list S3Object)) : list string :=
  (map_to_list sections).*1.

Section WithCollation.
(** [String.prototype.localeCompare] is provided by the host. *)
Variable localeCompare : string -> string -> Z.

Definition by_key (a b : S3Object) : Z :=
  localeCompare (key_or_empty a) (key_or_empty b).

Definition sortFilesIntoSections (fs : list S3Object) : list FileSection :=
  let '(sections, unsorted) := group_files fs in
  let fileSections :=
    map (fun p =>
           {| prefix := p;
              displayName := toUpperCase p;
              files := sort by_key (default [] (sections !! p)) |})
        (sort defaultCompare (Object_keys sections)) in
  if (0 <? Z.of_nat (length unsorted))
  then fileSections ++
         [ {| prefix := "unsorted";
              displayName := "Unsorted";
              files := sort by_key unsorted |} ]
  else fileSections.
End WithCollation.

(** Where the loop body puts a record: nowhere ([None]), into the section
    of a prefix ([Some (Some p)]) or into [unsorted] ([Some None]). *)
Definition target (f : S3Object) : option (option string) :=
  match Key f with
  | None => None
  | Some k => if truthy k then Some (match_prefix k) else None
  end.

Definition members (p : option string) (l : list S3Object) : list S3Object :=
  filter (fun f => target f = Some p) l.

Definition lookup_of (fs : list S3Object) : option (list S3Object) :=
  match fs with
  | [] => None
  | _ => Some fs
  end.

Definition grouped (l : list S3Object) (st : groups) : Prop :=
  st.2 = members None l /\
  forall p, st.1 !! p = lookup_of (members (Some p) l).

(** The output in terms of the input alone. *)
Definition section_for (cmp : string -> string -> Z) (l : list S3Object)
    (p : string) : FileSection :=
  {| prefix := p;
     displayName := toUpperCase p;
     files := sort (by_key cmp) (members (Some p) l) |}.

Definition unsorted_section (cmp : string -> string -> Z) (l : list S3Object)
    : FileSection :=
  {| prefix := "unsorted";
     displayName := "Unsorted";
     files := sort (by_key cmp) (members None l) |}.

Definition prefixes (l : list S3Object) : list string :=
  sort defaultCompare (Object_keys (group_files l).1).

(** All records shown, section after section. *)
Definition section_members (out : list FileSection) : list S3Object :=
  concat (map files out).

(** The keys that are present in a list of records. *)
Definition keys (l : list S3Object) : list string := omap Key l.

Definition two_lower (p : string) : Prop :=
  exists a b, p = String a (String b EmptyString) /\
              is_lower a = true /\ is_lower b = true.

(** [!file.Key] is false: the key is a non-empty string. *)
Definition has_key (f : S3Object) : bool :=
  match Key f with
  | Some k => truthy k
  | None => false
  end.



Definition obj (k : string) : S3Object :=
  {| Key := Some k; Size := None; LastModified := None |}.

End Classifier.

(** ** Number arithmetic

    The downloader computes [Math.round((loaded / total) * 100)] on
    Numbers, that is on binary64 values.  Only finite values that are not
    negative occur.  Such a value is kept as the fraction [num / den]; an
    operation takes the exact result and rounds it to 53 significant bits,
    to nearest, ties to even, as IEEE 754 prescribes.  The exponent range
    is not bounded: binary64 leaves it only beyond 2^1024 and below
    2^-1022, which no byte count and no quotient of byte counts below
    2^1024 by a length of at least one reaches before the percentage has
    become 0. *)

Module Double.

(** 2^k as the fraction [N2 k / D2 k], for every integer k. *)
Definition N2 (k : Z) : Z := 2 ^ Z.max k 0.
Definition D2 (k : Z) : Z := 2 ^ Z.max (- k) 0.

(** The integer nearest to [a / b], ties to the even one. *)
Definition rne (a b : Z) : Z :=
  let q := a / b in
  match (2 * (a mod b)) ?= b with
  | Lt => q
  | Gt => q + 1
  | Eq => if Z.even q then q else q + 1
  end.

(** 2^k <= n / d *)
Definition ge_pow2 (n d k : Z) : bool := d * N2 k <=? n * D2 k.

(** The exponent [e] with 2^e <= n / d < 2^(e+1). *)
Definition expo (n d : Z) : Z :=
  let e0 := Z.log2 n - Z.log2 d in
  if ge_pow2 n d e0 then e0 else e0 - 1.

Record Number := { num : Z; den : Z }.

(** [n / d] rounded to 53 significant bits. *)
Definition fl (n d : Z) : Number :=
  if n =? 0 then {| num := 0; den := 1 |}
  else let u := expo n d - 52 in
       {| num := rne (n * D2 u) (d * N2 u) * N2 u; den := D2 u |}.

Definition of_Z (n : Z) : Number := fl n 1.

Definition fadd (x y : Number) : Number :=
  fl (num x * den y + num y * den x) (den x * den y).

Definition fdiv (x y : Number) : Number :=
  fl (num x * den y) (den x * num y).

Definition fmul (x y : Number) : Number :=
  fl (num x * num y) (den x * den y).

(** [Math.round]: the nearest integer, a half goes up. *)
Definition Math_round (x : Number) : Z :=
  (2 * num x + den x) / (2 * den x).

(** Order and equality of the values. *)
Definition Nle (x y : Number) : Prop := num x * den y <= num y * den x.
Definition Neq (x y : Number) : Prop := num x * den y = num y * den x.

Definition wf (x : Number) : Prop := 0 <= num x /\ 0 < den x.

(** [x] is a binary64 value: rounding leaves it as it is. *)
Definition double (x : Number) : Prop :=
  wf x /\ Neq (fl (num x) (den x)) x.

(** [Math.round((loaded / total) * 100)] *)
Definition progress_of (loaded total : Number) : Z :=
  Math_round (fmul (fdiv loaded total) (of_Z 100)).

(** The same expression through the binary64 operations of the standard
    library, to compare with. *)
Definition SF_of_Z (n : Z) : spec_float := binary_normalize 53 1024 n 0 false.

Definition SF_round (x : spec_float) : option Z :=
  match x with
  | S754_zero _ => Some 0
  | S754_finite false m e =>
      Some (Math_round {| num := Zpos m * N2 e; den := D2 e |})
  | _ => None
  end.

Definition SF_progress (loaded total : Z) : option Z :=
  SF_round (SFmul 53 1024 (SFdiv 53 1024 (SF_of_Z loaded) (SF_of_Z total))
                          (SF_of_Z 100)).

End Double.

(** ** The downloader *)

Module Downloader.
Import JS Double.

(** The two pieces of component state the handler writes. *)
Record AppState := {
  downloadingFiles : gset string;
  downloadProgress : gmap string Z
}.

(** What the handler does to the world, in program order: the four state
    updates, the requests, and the dialogs. *)
Inductive effect :=
| DownloadingAdd (key : string)
| ProgressSet (key : string) (progress : Z)
| DownloadingDelete (key : string)
| ProgressDelete (key : string)
| GetSignedUrl (key : string)
| Fetch (url : string)
| ReaderRead
| ResponseBlob
| LinkClick (download : string) (content : list byte)
| Alert (key : string).

(** The updater functions passed to [setDownloadingFiles] and
    [setDownloadProgress]. *)
Definition apply_effect (e : effect) (st : AppState) : AppState :=
  match e with
  | DownloadingAdd k =>
      {| downloadingFiles := downloadingFiles st ∪ {[k]};
         downloadProgress := downloadProgress st |}
  | ProgressSet k n =>
      {| downloadingFiles := downloadingFiles st;
         downloadProgress := <[k := n]> (downloadProgress st) |}
  | DownloadingDelete k =>
      {| downloadingFiles := downloadingFiles st ∖ {[k]};
         downloadProgress := downloadProgress st |}
  | ProgressDelete k =>
      {| downloadingFiles := downloadingFiles st;
         downloadProgress := delete k (downloadProgress st) |}
  | _ => st
  end.

Definition run (es : list effect) (st : AppState) : AppState :=
  fold_left (fun st e => apply_effect e st) es st.

(** How a body stream finishes once its chunks are read. *)
Inductive stream_end := EndOfStream | StreamError.

Record ReadableStream := {
  chunks : list (list byte);
  ending : stream_end
}.

Record Response := {
  ok : bool;
  status : Z;
  content_length : option string;
  body : option ReadableStream
}.

(** What the awaited calls answer; [None] is a rejected promise. *)
Record Host := {
  s3Client : bool;
  getSignedUrl : string -> option string;
  fetch : string -> option Response
}.

Definition is_white (c : ascii) : bool :=
  match N_of_ascii c with
  | 9 | 10 | 11 | 12 | 13 | 32 | 160 => true
  | _ => false
  end%N.

Fixpoint skip_white (s : string) : string :=
  match s with
  | String c s' => if is_white c then skip_white s' else s
  | EmptyString => s
  end.

Definition digit (c : ascii) : option Z :=
  let n := N_of_ascii c in
  if ((48 <=? n) && (n <=? 57))%N then Some (Z.of_N n - 48) else None.

(** The longest run of decimal digits at the front; [None] without one. *)
Fixpoint digits (s : string) (acc : Z) (seen : bool) : option Z :=
  match s with
  | String c s' =>
      match digit c with
      | Some d => digits s' (10 * acc + d) true
      | None => if seen then Some acc else None
      end
  | EmptyString => if seen then Some acc else None
  end.

(** [parseInt(s, 10)]; [None] is NaN. *)
Definition parseInt (s : string) : option Z :=
  match skip_white s with
  | String "-" s' => option_map Z.opp (digits s' 0 false)
  | String "+" s' => digits s' 0 false
  | s' => digits s' 0 false
  end.

(** [contentLength ? parseInt(contentLength, 10) : 0] *)
Definition total_of (r : Response) : option Z :=
  match content_length r with
  | Some s => if truthy s then parseInt s else Some 0
  | None => Some 0
  end.

(** [response.blob()] *)
Definition blob (r : Response) : option (list byte) :=
  match body r with
  | None => Some []
  | Some s =>
      match ending s with
      | EndOfStream => Some (concat (chunks s))
      | StreamError => None
      end
  end.

Definition generateDownloadUrl (h : Host) (key : string)
    : list effect * string :=
  if s3Client h then
    match getSignedUrl h key with
    | Some url => ([GetSignedUrl key], url)
    | None => ([GetSignedUrl key], "#")
    end
  else ([], "#").

(** The [while (true)] loop over [reader.read()].  It gives the chunks
    collected, or [None] when a read rejects. *)
Fixpoint read_loop (key : string) (total : Number)
    (pending : list (list byte)) (fin : stream_end)
    (collected : list (list byte)) (loaded : Number)
    : list effect * option (list (list byte)) :=
  match pending with
  | [] =>
      match fin with
      | EndOfStream => ([ReaderRead], Some collected)
      | StreamError => ([ReaderRead], None)
      end
  | value :: pending' =>
      let collected' := collected ++ [value] in
      let loaded' := fadd loaded (of_Z (Z.of_nat (length value))) in
      let progress := progress_of loaded' total in
      let '(es, r) := read_loop key total pending' fin collected' loaded' in
      (ReaderRead :: ProgressSet key progress :: es, r)
  end.

Inductive completion := Normal | Return | Throw.

(** The statements between [try] and [catch]. *)
Definition try_block (h : Host) (key : string) : list effect * completion :=
  let '(es_url, url) := generateDownloadUrl h key in
  let start := [DownloadingAdd key; ProgressSet key 0] ++ es_url in
  if String.eqb url "#" then (start, Return)
  else
    match fetch h url with
    | None => (start ++ [Fetch url], Throw)
    | Some response =>
        if negb (ok response) then (start ++ [Fetch url], Throw)
        else
          let fallback :=
            match blob response with
            | Some b => (start ++ [Fetch url; ResponseBlob; LinkClick key b], Normal)
            | None => (start ++ [Fetch url; ResponseBlob], Throw)
            end in
          match body response, total_of response with
          | Some stream, Some total =>
              if 0 <? total then
                let '(es, r) :=
                  read_loop key (of_Z total) (chunks stream) (ending stream)
                            [] (of_Z 0) in
                match r with
                | Some cs =>
                    (start ++ [Fetch url] ++ es ++ [LinkClick key (concat cs)],
                     Normal)
                | None => (start ++ [Fetch url] ++ es, Throw)
                end
              else fallback
          | _, _ => fallback
          end
    end.

(** [st] is the state of the render whose handler is called. *)
Definition handleDownload (st : AppState) (h : Host) (key : string)
    : list effect :=
  if decide (key ∈ downloadingFiles st) then []
  else
    let '(es, c) := try_block h key in
    es ++ match c with Throw => [Alert key] | _ => [] end
       ++ [DownloadingDelete key; ProgressDelete key].

(** The steps between the first two updates and the last two. *)
Definition middle (h : Host) (key : string) : list effect :=
  let '(es, c) := try_block h key in
  drop 2 es ++ match c with Throw => [Alert key] | _ => [] end.

(** The state updates of a trace that concern one key. *)
Definition effect_key (e : effect) : option string :=
  match e with
  | DownloadingAdd k | ProgressSet k _ | DownloadingDelete k
  | ProgressDelete k => Some k
  | _ => None
  end.

Definition is_request (e : effect) : bool :=
  match e with
  | GetSignedUrl _ | Fetch _ | ReaderRead | ResponseBlob => true
  | _ => false
  end.

(** The values written for [key], oldest first. *)
Fixpoint progress_values (key : string) (es : list effect) : list Z :=
  match es with
  | [] => []
  | ProgressSet k n :: es' =>
      if String.eqb k key then n :: progress_values key es'
      else progress_values key es'
  | _ :: es' => progress_values key es'
  end.

(** [loaded] after each chunk. *)
Fixpoint running (loaded : Number) (cs : list (list byte)) : list Number :=
  match cs with
  | [] => []
  | c :: cs' =>
      let loaded' := fadd loaded (of_Z (Z.of_nat (length c))) in
      loaded' :: running loaded' cs'
  end.

(** Bytes in a sequence of chunks. *)
Definition byte_count (cs : list (list byte)) : Z :=
  Z.of_nat (length (concat cs)).

(** The steps of the loop while chunks arrive. *)
Definition loop_effects (key : string) (total loaded : Number)
    (cs : list (list byte)) : list effect :=
  flat_map (fun x => [ReaderRead; ProgressSet key (progress_of x total)])
           (running loaded cs).

(** The download of [key] is answered with a successful response that
    declares the length [total] and whose body delivers [cs] and then
    finishes as [fin]. *)
Definition answered (h : Host) (key : string) (total : Z)
    (cs : list (list byte)) (fin : stream_end) : Prop :=
  exists url r s,
    s3Client h = true /\ getSignedUrl h key = Some url /\ url <> "#" /\
    fetch h url = Some r /\ ok r = true /\
    total_of r = Some total /\ 0 < total /\
    body r = Some s /\ chunks s = cs /\ ending s = fin.

(** Byte counts that a Number holds exactly. *)
Definition safe (n : Z) : Prop := 0 <= n < 2 ^ 53.

(** The handlers of other keys run between the steps of this one. *)
Inductive interleave {A : Type} : list A -> list A -> list A -> Prop :=
| interleave_nil : interleave [] [] []
| interleave_left x l r m :
    interleave l r m -> interleave (x :: l) r (x :: m)
| interleave_right x l r m :
    interleave l r m -> interleave l (x :: r) (x :: m).

(** What the state records about one key. *)
Definition view (key : string) (st : AppState) : bool * option Z :=
  (bool_decide (key ∈ downloadingFiles st), downloadProgress st !! key).

(** A host that signs every key and answers with one response. *)
Definition serving (r : Response) : Host :=
  {| s3Client := true;
     getSignedUrl := fun key => Some ("https://sos/" ++ key)%string;
     fetch := fun _ => Some r |}.

Definition streamed (len : string) (cs : list (list byte)) : Response :=
  {| ok := true; status := 200; content_length := Some len;
     body := Some {| chunks := cs; ending := EndOfStream |} |}.

Definition idle : AppState :=
  {| downloadingFiles := ∅; downloadProgress := ∅ |}.

Definition bytes (n : nat) : list byte := repeat x00 n.

End Downloader.

(** ** The download handler, step by step *)

Module Steps.
Import JS Classifier Double Downloader.

(** All bytes of the body; a response without a body has none. *)
Definition body_bytes (r : Response) : list byte :=
  match body r with
  | Some s => concat (chunks s)
  | None => []
  end.

(** Reading the body to its end rejects. *)
Definition body_fails (r : Response) : bool :=
  match body r with
  | Some s =>
      match ending s with
      | StreamError => true
      | EndOfStream => false
      end
  | None => false
  end.

(** [response.body && total > 0]: the stream and the declared length. *)
Definition streams (r : Response) : option (ReadableStream * Z) :=
  match body r, total_of r with
  | Some s, Some total => if 0 <? total then Some (s, total) else None
  | _, _ => None
  end.

(** What follows [await fetch(url)] when it answers [r]. *)
Definition after_fetch (key : string) (r : Response) : list effect :=
  if ok r then
    match streams r with
    | Some (s, total) =>
        loop_effects key (of_Z total) (of_Z 0) (chunks s) ++ [ReaderRead]
    | None => [ResponseBlob]
    end ++
    (if body_fails r then [Alert key] else [LinkClick key (body_bytes r)])
  else [Alert key].

(** The handler between its first two updates and its last two. *)
Definition steps (h : Host) (key : string) : list effect :=
  if s3Client h then
    GetSignedUrl key ::
    match getSignedUrl h key with
    | Some url =>
        if String.eqb url "#" then []
        else Fetch url ::
             match fetch h url with
             | Some r => after_fetch key r
             | None => [Alert key]
             end
    | None => []
    end
  else [].

(** The download button of a row. *)
Inductive button_text := TextDownload | TextPercent (n : Z).

Record button := { disabled : bool; text : button_text }.

(** [downloadProgress.get(k) || 0] *)
Definition shown_progress (st : AppState) (k : string) : Z :=
  match downloadProgress st !! k with
  | Some n => if n =? 0 then 0 else n
  | None => 0
  end.

Definition download_button (st : AppState) (file : S3Object) : button :=
  let k := key_or_empty file in
  let busy := bool_decide (k ∈ downloadingFiles st) in
  {| disabled := busy;
     text := if busy then TextPercent (shown_progress st k) else TextDownload |}.

End Steps.

(** ** The page: client set-up, listing and what is rendered *)

Module Page.
Import JS Classifier.

(** [import.meta.env]: a variable is a string or undefined. *)
Record Env := {
  VITE_EXOSCALE_ACCESS_KEY : option string;
  VITE_EXOSCALE_SECRET_KEY : option string;
  VITE_EXOSCALE_REGION : option string;
  VITE_EXOSCALE_ENDPOINT : option string;
  VITE_EXOSCALE_BUCKET_NAME : option string
}.

(** [!v] *)
Definition absent (v : option string) : bool :=
  match v with
  | Some s => negb (truthy s)
  | None => true
  end.

(** The configuration handed to [new S3Client]. *)
Record S3Client := {
  region : option string;
  endpoint : option string;
  accessKeyId : option string;
  secretAccessKey : option string;
  forcePathStyle : bool
}.

Record PageState := {
  files : list S3Object;
  fileSections : list FileSection;
  loading : bool;
  error : option string;
  s3Client : option S3Client
}.

(** The values given to [useState]. *)
Definition initial : PageState :=
  {| files := []; fileSections := []; loading := true; error := None;
     s3Client := None |}.

(** State updates and the one request, in program order. *)
Inductive step :=
| SetFiles (value : list S3Object)
| SetFileSections (value : list FileSection)
| SetLoading (value : bool)
| SetError (value : string)
| SetS3Client (value : S3Client)
| SendListObjectsV2 (Bucket : option string).

Definition apply_step (s : step) (st : PageState) : PageState :=
  match s with
  | SetFiles v =>
      {| files := v; fileSections := fileSections st; loading := loading st;
         error := error st; s3Client := s3Client st |}
  | SetFileSections v =>
      {| files := files st; fileSections := v; loading := loading st;
         error := error st; s3Client := s3Client st |}
  | SetLoading v =>
      {| files := files st; fileSections := fileSections st; loading := v;
         error := error st; s3Client := s3Client st |}
  | SetError v =>
      {| files := files st; fileSections := fileSections st;
         loading := loading st; error := Some v; s3Client := s3Client st |}
  | SetS3Client v =>
      {| files := files st; fileSections := fileSections st;
         loading := loading st; error := error st; s3Client := Some v |}
  | SendListObjectsV2 _ => st
  end.

Definition run_steps (ss : list step) (st : PageState) : PageState :=
  fold_left (fun st s => apply_step s st) ss st.

(** What is caught: an [Error] with its message, or any other value. *)
Inductive thrown := ErrorObject (message : string) | OtherValue.

(** What [s3Client.send(command)] settles to; [Contents] may be missing. *)
Inductive answer :=
| Listed (Contents : option (list S3Object))
| Rejected (err : thrown).

(** [s.includes(needle)] *)
Fixpoint includes (s needle : string) : bool :=
  String.prefix needle s ||
  match s with
  | String _ s' => includes s' needle
  | EmptyString => false
  end.

(** A variable inside a template literal. *)
Definition interpolate (v : option string) : string :=
  match v with
  | Some s => s
  | None => "undefined"
  end.

Definition errorMessage (env : Env) (err : thrown) : string :=
  match err with
  | ErrorObject message =>
      if includes message "AccessDenied" || includes message "not authorized"
      then "Access denied: Your API key doesn't have permission to list objects in this bucket. Please check your Exoscale IAM permissions or try different credentials."
      else if includes message "InvalidAccessKeyId"
      then "Invalid access key: Please check your VITE_EXOSCALE_ACCESS_KEY in the .env file."
      else if includes message "SignatureDoesNotMatch"
      then "Invalid secret key: Please check your VITE_EXOSCALE_SECRET_KEY in the .env file."
      else if includes message "NoSuchBucket"
      then "Bucket not found: The bucket '"
           ++ interpolate (VITE_EXOSCALE_BUCKET_NAME env)
           ++ "' doesn't exist or isn't accessible."
      else message
  | OtherValue => "Unknown error"
  end%string.

(** The first effect: create the client. *)
Definition initClient (env : Env) : list step :=
  if absent (VITE_EXOSCALE_ACCESS_KEY env) || absent (VITE_EXOSCALE_SECRET_KEY env)
  then [SetError "Please configure your Exoscale credentials in .env file";
        SetLoading false]
  else [SetS3Client
          {| region := VITE_EXOSCALE_REGION env;
             endpoint := VITE_EXOSCALE_ENDPOINT env;
             accessKeyId := VITE_EXOSCALE_ACCESS_KEY env;
             secretAccessKey := VITE_EXOSCALE_SECRET_KEY env;
             forcePathStyle := true |}].

Section WithCollation.
Variable localeCompare : string -> string -> Z.

Definition loadFiles (env : Env) (a : answer) : list step :=
  [SetLoading true; SendListObjectsV2 (VITE_EXOSCALE_BUCKET_NAME env)] ++
  match a with
  | Listed Contents =>
      let allFiles := match Contents with Some c => c | None => [] end in
      [SetFiles allFiles;
       SetFileSections (sortFilesIntoSections localeCompare allFiles)]
  | Rejected err =>
      [SetError ("Failed to load files: " ++ errorMessage env err)%string]
  end ++
  [SetLoading false].

(** The second effect: it runs once a client is there. *)
Definition listOnClient (env : Env) (a : answer) (st : PageState) : list step :=
  match s3Client st with
  | Some _ => loadFiles env a
  | None => []
  end.

(** Both effects after the first render. *)
Definition mount (env : Env) (a : answer) : list step :=
  initClient env ++ listOnClient env a (run_steps (initClient env) initial).
End WithCollation.

(** Which of the three returns of the component is taken, and with what. *)
Inductive screen :=
| LoadingScreen
| ErrorScreen (message : string)
| FilesScreen (bucket : option string) (found : nat)
              (sections : option (list FileSection)).

Definition render (env : Env) (st : PageState) : screen :=
  let listing :=
    FilesScreen (VITE_EXOSCALE_BUCKET_NAME env) (length (files st))
      (if (Z.of_nat (length (files st)) =? 0) then None
       else Some (fileSections st)) in
  if loading st then LoadingScreen
  else match error st with
       | Some e => if truthy e then ErrorScreen e else listing
       | None => listing
       end.

Definition sends_request (s : step) : bool :=
  match s with
  | SendListObjectsV2 _ => true
  | _ => false
  end.

Definition env_of (access secret bucket : option string) : Env :=
  {| VITE_EXOSCALE_ACCESS_KEY := access;
     VITE_EXOSCALE_SECRET_KEY := secret;
     VITE_EXOSCALE_REGION := None;
     VITE_EXOSCALE_ENDPOINT := None;
     VITE_EXOSCALE_BUCKET_NAME := bucket |}.

End Page.

(** ** Facts about the host operations *)

Module SortFacts.
Import JS.

Section Generic.
Context {A : Type} (cmp : A -> A -> Z).

Lemma insert_perm x l : insert cmp x l ≡ₚ x :: l.
Proof.
  induction l as [|y l IH]; simpl; [done|].
  destruct (cmp x y <=? 0); [done|].
  rewrite IH. apply Permutation_swap.
Qed.

Lemma sort_perm l : sort cmp l ≡ₚ l.
Proof.
  induction l as [|x l IH]; simpl; [done|].
  fold (sort cmp l). by rewrite insert_perm, IH.
Qed.

Lemma elem_of_sort x l : x ∈ sort cmp l <-> x ∈ l.
Proof. by rewrite sort_perm. Qed.

Lemma sort_nil_inv l : sort cmp l = [] -> l = [].
Proof.
  intros H. apply Permutation_nil_r. rewrite <- H. symmetry. apply sort_perm.
Qed.

Hypothesis Hc : consistent cmp.

Lemma le_by_total a b : le_by cmp a b \/ le_by cmp b a.
Proof.
  unfold le_by. destruct (Z_le_gt_dec (cmp a b) 0) as [?|Hgt]; [by left|right].
  pose proof (proj2 (cmp_flip cmp Hc b a)). lia.
Qed.

Lemma insert_sorted x l :
  StronglySorted (le_by cmp) l -> StronglySorted (le_by cmp) (insert cmp x l).
Proof.
  induction 1 as [|y l Hs IH Hall]; simpl.
  { repeat constructor. }
  destruct (Z.leb_spec (cmp x y) 0) as [Hle|Hgt].
  - constructor; [by constructor|].
    constructor; [done|].
    eapply Forall_impl; [exact Hall|].
    intros z Hz. eapply (cmp_trans cmp Hc); eauto.
  - constructor; [done|].
    rewrite insert_perm. constructor; [|done].
    pose proof (proj2 (cmp_flip cmp Hc y x)). unfold le_by. lia.
Qed.

Lemma sort_sorted l : StronglySorted (le_by cmp) (sort cmp l).
Proof.
  induction l as [|x l IH]; simpl; [constructor|].
  by apply insert_sorted.
Qed.

(** Without ties the arrangement depends on the elements only. *)
Lemma sort_perm_eq l l' :
  (forall a b, a ∈ l -> b ∈ l -> cmp a b = 0 -> a = b) ->
  l ≡ₚ l' -> sort cmp l = sort cmp l'.
Proof.
  intros Hsep Hp.
  apply (StronglySorted_unique_strong (le_by cmp)); try apply sort_sorted.
  - intros a b Ha Hb Hab Hba. apply Hsep.
    + by apply (elem_of_sort a l).
    + apply (elem_of_sort b l') in Hb. by rewrite Hp.
    + pose proof (proj1 (cmp_flip cmp Hc a b)). unfold le_by in *. lia.
  - etrans; [apply sort_perm|]. etrans; [exact Hp|]. symmetry. apply sort_perm.
Qed.
End Generic.


Lemma compare_refl (s : string) : String.compare s s = Eq.
Proof.
  induction s as [|c s IH]; simpl; [done|].
  unfold Ascii.compare. by rewrite N.compare_refl.
Qed.

Lemma defaultCompare_le x y : defaultCompare x y <= 0 <-> String.le x y.
Proof.
  unfold defaultCompare, String.le, String.leb.
  destruct (String.compare x y); simpl; intuition (try lia; try done).
Qed.

Lemma defaultCompare_zero x y : defaultCompare x y = 0 -> x = y.
Proof.
  unfold defaultCompare. destruct (String.compare x y) eqn:E; try lia.
  intros _. by apply String.compare_eq_iff.
Qed.

Lemma defaultCompare_consistent : consistent defaultCompare.
Proof.
  split.
  - intros a. unfold defaultCompare. by rewrite compare_refl.
  - intros a b. unfold defaultCompare. rewrite (String.compare_antisym b a).
    destruct (String.compare a b); simpl; lia.
  - intros a b c. rewrite !defaultCompare_le. apply transitivity.
Qed.

End SortFacts.

(** ** Facts about the grouping loop *)

Module GroupFacts.
Import JS Classifier SortFacts.

Lemma members_snoc_same p l f :
  target f = Some p -> members p (l ++ [f]) = members p l ++ [f].
Proof.
  intros H. unfold members. rewrite filter_app, filter_cons_True by done.
  done.
Qed.

Lemma members_snoc_other p l f :
  target f <> Some p -> members p (l ++ [f]) = members p l.
Proof.
  intros H. unfold members. rewrite filter_app, filter_cons_False by done.
  by rewrite filter_nil, app_nil_r.
Qed.

Lemma lookup_of_snoc fs f : lookup_of (fs ++ [f]) = Some (fs ++ [f]).
Proof. by destruct fs. Qed.

Lemma forEach_body_grouped l st f :
  grouped l st -> grouped (l ++ [f]) (forEach_body st f).
Proof.
  intros [Hu Hs]. unfold forEach_body.
  assert (Ht : target f = target f) by done. unfold target at 2 in Ht.
  destruct (Key f) as [k|]; [destruct (truthy k); [destruct (match_prefix k) as [q|]|]|].
  - split; simpl.
    + rewrite members_snoc_other by (rewrite Ht; congruence). done.
    + intros p. destruct (decide (p = q)) as [->|Hne].
      * rewrite members_snoc_same, lookup_of_snoc by done.
        rewrite lookup_alter_eq.
        specialize (Hs q). destruct (st.1 !! q) as [fs|] eqn:E.
        -- rewrite E. simpl. destruct (members (Some q) l); simplify_eq/=. done.
        -- rewrite lookup_insert_eq. simpl.
           destruct (members (Some q) l); simplify_eq/=. done.
      * rewrite members_snoc_other by (rewrite Ht; congruence).
        rewrite lookup_alter_ne by done.
        destruct (st.1 !! q); [apply Hs|].
        rewrite lookup_insert_ne by done. apply Hs.
  - split; simpl.
    + rewrite members_snoc_same by done. by rewrite Hu.
    + intros p. rewrite members_snoc_other by (rewrite Ht; congruence). apply Hs.
  - split; [|intros p]; rewrite members_snoc_other by (rewrite Ht; congruence);
      [apply Hu|apply Hs].
  - split; [|intros p]; rewrite members_snoc_other by (rewrite Ht; congruence);
      [apply Hu|apply Hs].
Qed.

Lemma fold_grouped l l0 st :
  grouped l0 st -> grouped (l0 ++ l) (fold_left forEach_body l st).
Proof.
  revert l0 st. induction l as [|f l IH]; intros l0 st H; simpl.
  { by rewrite app_nil_r. }
  replace (l0 ++ f :: l) with ((l0 ++ [f]) ++ l) by (by rewrite <- app_assoc).
  by apply IH, forEach_body_grouped.
Qed.

Lemma group_files_grouped l : grouped l (group_files l).
Proof.
  apply (fold_grouped l []). split; [done|]. intros p. apply lookup_empty.
Qed.

Lemma lookup_of_default fs : default [] (lookup_of fs) = fs.
Proof. by destruct fs. Qed.

Lemma sortFilesIntoSections_eq cmp l :
  sortFilesIntoSections cmp l =
  map (section_for cmp l) (prefixes l) ++
  (if decide (members None l = []) then [] else [unsorted_section cmp l]).
Proof.
  unfold sortFilesIntoSections, prefixes.
  destruct (group_files_grouped l) as [Hu Hs].
  destruct (group_files l) as [sections unsorted]; simpl in *. subst unsorted.
  assert (Hmap : map (fun p => {| prefix := p; displayName := toUpperCase p;
                      files := sort (by_key cmp) (default [] (sections !! p)) |})
                   (sort defaultCompare (Object_keys sections))
                 = map (section_for cmp l) (sort defaultCompare (Object_keys sections))).
  { apply map_ext. intros p. unfold section_for.
    by rewrite Hs, lookup_of_default. }
  rewrite Hmap. destruct (members None l) as [|u us] eqn:E; simpl.
  - by rewrite app_nil_r.
  - unfold unsorted_section. by rewrite E.
Qed.

Lemma elem_of_Object_keys (m : gmap string (list S3Object)) p :
  p ∈ Object_keys m <-> is_Some (m !! p).
Proof.
  unfold Object_keys. rewrite list_elem_of_fmap. split.
  - intros [[q fs] [-> H]]. apply elem_of_map_to_list in H. by exists fs.
  - intros [fs H]. exists (p, fs). split; [done|]. by apply elem_of_map_to_list.
Qed.

Lemma elem_of_prefixes l p :
  p ∈ prefixes l <-> exists f, f ∈ l /\ target f = Some (Some p).
Proof.
  unfold prefixes. rewrite elem_of_sort, elem_of_Object_keys.
  destruct (group_files_grouped l) as [_ Hs]. rewrite Hs.
  unfold members. split.
  - intros [fs H]. destruct (filter _ l) as [|f fs'] eqn:E; [done|].
    assert (Hf : f ∈ filter (fun f => target f = Some (Some p)) l)
      by (rewrite E; left).
    apply list_elem_of_filter in Hf. exists f. tauto.
  - intros (f & Hf & Ht).
    assert (Hin : f ∈ filter (fun f => target f = Some (Some p)) l)
      by (by apply list_elem_of_filter).
    destruct (filter _ l); [by apply elem_of_nil in Hin|]. by eexists.
Qed.

Lemma NoDup_prefixes l : NoDup (prefixes l).
Proof.
  unfold prefixes. rewrite sort_perm. apply NoDup_fst_map_to_list.
Qed.

Lemma concat_map_perm_keys {A B} (g : A -> list B) ks ks' :
  ks ≡ₚ ks' -> concat (map g ks) ≡ₚ concat (map g ks').
Proof.
  induction 1; simpl.
  - done.
  - by rewrite IHPermutation.
  - rewrite !app_assoc. f_equiv. apply Permutation_app_comm.
  - by etrans.
Qed.

Lemma concat_map_perm_pointwise {A B} (g g' : A -> list B) ks :
  (forall k, g k ≡ₚ g' k) -> concat (map g ks) ≡ₚ concat (map g' ks).
Proof.
  intros H. induction ks as [|k ks IH]; simpl; [done|]. by rewrite H, IH.
Qed.

Lemma members_cons p f l :
  members p (f :: l) =
  if decide (target f = Some p) then f :: members p l else members p l.
Proof. unfold members. by rewrite filter_cons. Qed.

(** Every record that the loop keeps is in exactly one group. *)
Lemma groups_cover l ks :
  NoDup ks ->
  (forall f p, f ∈ l -> target f = Some (Some p) -> p ∈ ks) ->
  concat (map (fun p => members (Some p) l) ks) ++ members None l
  ≡ₚ filter (fun f => is_Some (target f)) l.
Proof.
  intros Hnd. induction l as [|f l IH]; intros Hcov.
  { simpl. rewrite app_nil_r. clear. induction ks; simpl; auto. }
  assert (Hcov' : forall f p, f ∈ l -> target f = Some (Some p) -> p ∈ ks).
  { intros g p Hg. apply Hcov. by right. }
  specialize (IH Hcov'). rewrite filter_cons.
  destruct (target f) as [[q|]|] eqn:Ht.
  - rewrite decide_True by done.
    assert (Hq : q ∈ ks) by (apply (Hcov f); [left|done]).
    apply list_elem_of_split in Hq as (k1 & k2 & ->).
    apply NoDup_app in Hnd as (_ & Hk1 & Hk2).
    apply NoDup_cons in Hk2 as [Hk2 _].
    assert (Hq1 : q ∉ k1) by (intros H; apply (Hk1 q H); left).
    rewrite <- IH, !map_app, !concat_app. simpl.
    assert (E1 : forall k, q ∉ k ->
      map (fun p => members (Some p) (f :: l)) k
      = map (fun p => members (Some p) l) k).
    { intros k Hk. apply map_ext_in. intros p Hp%list_elem_of_In.
      rewrite members_cons, Ht, decide_False; [done|].
      intros [= ->]. done. }
    rewrite (E1 k1 Hq1), (E1 k2 Hk2).
    rewrite !members_cons, Ht, decide_True, decide_False by done.
    rewrite <- !app_assoc. simpl. symmetry. apply Permutation_middle.
  - rewrite decide_True by done. rewrite <- IH.
    assert (E1 : map (fun p => members (Some p) (f :: l)) ks
      = map (fun p => members (Some p) l) ks).
    { apply map_ext. intros p. by rewrite members_cons, Ht, decide_False. }
    rewrite E1, members_cons, Ht, decide_True by done.
    symmetry. apply Permutation_middle.
  - rewrite decide_False by (by intros []). rewrite <- IH.
    assert (E1 : map (fun p => members (Some p) (f :: l)) ks
      = map (fun p => members (Some p) l) ks).
    { apply map_ext. intros p. by rewrite members_cons, Ht, decide_False. }
    by rewrite E1, members_cons, Ht, decide_False.
Qed.

(** The records shown are the records with a non-empty key, each as often
    as the input has it. *)
Lemma section_members_perm cmp l :
  section_members (sortFilesIntoSections cmp l)
  ≡ₚ filter (fun f => is_Some (target f)) l.
Proof.
  rewrite sortFilesIntoSections_eq. unfold section_members.
  rewrite map_app, concat_app, map_map. simpl.
  rewrite <- (groups_cover l (prefixes l)).
  - f_equiv.
    + apply concat_map_perm_pointwise. intros p. apply sort_perm.
    + destruct (decide (members None l = [])) as [->|]; simpl; [done|].
      rewrite app_nil_r. apply sort_perm.
  - apply NoDup_prefixes.
  - intros f p Hf Ht. apply elem_of_prefixes. eauto.
Qed.

Lemma target_has_key f : is_Some (target f) <-> has_key f = true.
Proof.
  unfold target, has_key. destruct (Key f) as [k|]; [destruct (truthy k)|];
    split; (done || (by intros []) || eauto).
Qed.

Lemma kept_all l :
  Forall (fun f => has_key f = true) l ->
  filter (fun f => is_Some (target f)) l = l.
Proof.
  induction 1 as [|f l Hf _ IH]; [done|].
  rewrite filter_cons, decide_True by (by apply target_has_key).
  by rewrite IH.
Qed.

Lemma elem_of_section_members f out :
  f ∈ section_members out <-> exists s, s ∈ out /\ f ∈ files s.
Proof.
  unfold section_members. induction out as [|s out IH]; simpl.
  - split; [by intros ?%elem_of_nil|]. by intros (s & ?%elem_of_nil & _).
  - rewrite elem_of_app, IH. split.
    + intros [H|(s' & H1 & H2)]; [exists s; split; [left|done]|].
      exists s'. split; [by right|done].
    + intros (s' & [->|H1]%elem_of_cons & H2); [by left|right; eauto].
Qed.

Lemma match_prefix_two_lower k p : match_prefix k = Some p -> two_lower p.
Proof.
  unfold match_prefix.
  destruct k as [|a [|b [|c k]]]; try done.
  destruct (is_lower a) eqn:Ha, (is_lower b) eqn:Hb, (Ascii.eqb c "-");
    simpl; try done.
  intros [= <-]. by exists a, b.
Qed.

Lemma target_two_lower f p : target f = Some (Some p) -> two_lower p.
Proof.
  unfold target. destruct (Key f) as [k|]; [|done].
  destruct (truthy k); [|done]. intros [= H]. by eapply match_prefix_two_lower.
Qed.




Lemma by_key_consistent cmp : consistent cmp -> consistent (by_key cmp).
Proof.
  intros [H1 H2 H3]. unfold by_key. split; eauto.
Qed.

Lemma elem_of_members p f l : f ∈ members p l <-> target f = Some p /\ f ∈ l.
Proof. unfold members. by rewrite list_elem_of_filter. Qed.




End GroupFacts.

(** ** Facts about Number arithmetic *)

Module DoubleFacts.
Import Double.

Ltac pow2 :=
  unfold N2, D2;
  repeat match goal with
         | |- context [Z.max ?a ?b] =>
             destruct (Z.max_spec a b) as [[? ->]|[? ->]]
         end;
  rewrite <- ?Z.pow_add_r by lia.

Lemma N2_pos k : 0 < N2 k.
Proof. unfold N2. apply Z.pow_pos_nonneg; lia. Qed.

Lemma D2_pos k : 0 < D2 k.
Proof. unfold D2. apply Z.pow_pos_nonneg; lia. Qed.

Lemma ND_add a b : N2 (a + b) * D2 a * D2 b = D2 (a + b) * N2 a * N2 b.
Proof. pow2; f_equal; lia. Qed.

Lemma pow_ND x y : 0 <= x -> 0 <= y -> 2 ^ x * D2 (x - y) = 2 ^ y * N2 (x - y).
Proof. intros. pow2; f_equal; lia. Qed.

Lemma ND_le a b : a <= b -> N2 a * D2 b <= N2 b * D2 a.
Proof. intros. pow2; apply Z.pow_le_mono_r; lia. Qed.

Lemma cross_trans n d n' d' n'' d'' :
  0 < d -> 0 < d' -> 0 < d'' ->
  n * d' <= n' * d -> n' * d'' <= n'' * d' -> n * d'' <= n'' * d.
Proof.
  intros Hd Hd' Hd'' H1 H2.
  apply (Z.mul_le_mono_pos_r _ _ d'); [lia|].
  assert (n * d' * d'' <= n' * d * d'') by (apply Z.mul_le_mono_nonneg_r; lia).
  assert (n' * d'' * d <= n'' * d' * d) by (apply Z.mul_le_mono_nonneg_r; lia).
  lia.
Qed.

Lemma cross_trans_lt n d n' d' n'' d'' :
  0 < d -> 0 < d' -> 0 < d'' ->
  n * d' <= n' * d -> n' * d'' < n'' * d' -> n * d'' < n'' * d.
Proof.
  intros Hd Hd' Hd'' H1 H2.
  apply (Z.mul_lt_mono_pos_r d'); [lia|].
  assert (n * d' * d'' <= n' * d * d'') by (apply Z.mul_le_mono_nonneg_r; lia).
  assert (n' * d'' * d < n'' * d' * d) by (apply Z.mul_lt_mono_pos_r; lia).
  lia.
Qed.

Lemma rne_spec a b :
  0 < b ->
  let k := rne a b in
  2 * a - b <= 2 * k * b <= 2 * a + b /\
  (2 * k * b = 2 * a + b -> Z.even k = true) /\
  (2 * k * b = 2 * a - b -> Z.even k = true).
Proof.
  intros Hb. unfold rne.
  pose proof (Z.div_mod a b ltac:(lia)) as E.
  pose proof (Z.mod_pos_bound a b Hb) as Hr.
  set (q := a / b) in *. set (r := a mod b) in *.
  destruct (Z.compare_spec (2 * r) b) as [H|H|H]; cbv zeta.
  - destruct (Z.even q) eqn:Ev.
    + split; [nia|]. split; intros; [nia|done].
    + split; [nia|]. split; intros; [|nia].
      rewrite Z.even_add, Ev. reflexivity.
  - split; [nia|]. split; intros; nia.
  - split; [nia|]. split; intros; nia.
Qed.

Lemma rne_mono a b a' b' :
  0 < b -> 0 < b' -> a * b' <= a' * b -> rne a b <= rne a' b'.
Proof.
  intros Hb Hb' H.
  destruct (rne_spec a b Hb) as ([_ Hu] & Hue & _).
  destruct (rne_spec a' b' Hb') as ([Hl _] & _ & Hle).
  set (k := rne a b) in *. set (k' := rne a' b') in *.
  destruct (Z_le_gt_dec k k') as [|Hgt]; [done|exfalso].
  assert (H1 : 2 * k * b * b' <= (2 * a + b) * b')
    by (apply Z.mul_le_mono_nonneg_r; lia).
  assert (H2 : (2 * a' - b') * b <= 2 * k' * b' * b)
    by (apply Z.mul_le_mono_nonneg_r; lia).
  assert (Hbb : 0 < b * b') by nia.
  assert (Hk : k = k' + 1) by nia.
  assert (E1 : 2 * k * b = 2 * a + b) by nia.
  assert (E2 : 2 * k' * b' = 2 * a' - b') by nia.
  specialize (Hue E1). specialize (Hle E2).
  rewrite Hk, Z.even_add, Hle in Hue. done.
Qed.

Lemma rne_exact k b : 0 < b -> rne (k * b) b = k.
Proof.
  intros Hb. unfold rne. rewrite Z.div_mul, Z.mod_mul by lia.
  destruct (Z.compare_spec (2 * 0) b); lia.
Qed.

Lemma rne_lower A a b : 0 < b -> A * b <= a -> A <= rne a b.
Proof.
  intros Hb H. rewrite <- (rne_exact A 1) by lia. apply rne_mono; lia.
Qed.

Lemma rne_upper B a b : 0 < b -> a <= B * b -> rne a b <= B.
Proof.
  intros Hb H. etrans; [|apply Z.eq_le_incl, (rne_exact B 1); lia].
  apply rne_mono; lia.
Qed.

Lemma expo_spec n d :
  0 < n -> 0 < d ->
  d * N2 (expo n d) <= n * D2 (expo n d) /\
  n * D2 (expo n d + 1) < d * N2 (expo n d + 1).
Proof.
  intros Hn Hd. unfold expo, ge_pow2.
  pose proof (Z.log2_spec n Hn) as [Hn1 Hn2].
  pose proof (Z.log2_spec d Hd) as [Hd1 Hd2].
  pose proof (Z.log2_nonneg n). pose proof (Z.log2_nonneg d).
  set (a := Z.log2 n) in *. set (b := Z.log2 d) in *.
  destruct (Z.leb_spec (d * N2 (a - b)) (n * D2 (a - b))) as [Hge|Hlt].
  - split; [done|].
    pose proof (pow_ND (Z.succ a) b ltac:(lia) ltac:(lia)) as E.
    replace (Z.succ a - b) with (a - b + 1) in E by lia.
    pose proof (N2_pos (a - b + 1)). pose proof (D2_pos (a - b + 1)).
    nia.
  - replace (a - b - 1 + 1) with (a - b) by lia. split; [|done].
    pose proof (pow_ND a (Z.succ b) ltac:(lia) ltac:(lia)) as E.
    replace (a - Z.succ b) with (a - b - 1) in E by lia.
    pose proof (N2_pos (a - b - 1)). pose proof (D2_pos (a - b - 1)).
    nia.
Qed.

Lemma expo_mono n d n' d' :
  0 < n -> 0 < d -> 0 < n' -> 0 < d' ->
  n * d' <= n' * d -> expo n d <= expo n' d'.
Proof.
  intros Hn Hd Hn' Hd' H.
  destruct (expo_spec n d Hn Hd) as [H1 _].
  destruct (expo_spec n' d' Hn' Hd') as [_ H2].
  set (e := expo n d) in *. set (e' := expo n' d') in *.
  destruct (Z_le_gt_dec e e') as [|Hgt]; [done|exfalso].
  pose proof (ND_le (e' + 1) e ltac:(lia)) as H3.
  pose proof (N2_pos e). pose proof (D2_pos e).
  pose proof (N2_pos (e' + 1)). pose proof (D2_pos (e' + 1)).
  (* n'/d' < 2^(e'+1) <= 2^e <= n/d <= n'/d' *)
  assert (A1 : N2 (e' + 1) * n <= n' * D2 (e' + 1) -> False).
  { intros. nia. }
  apply A1.
  (* 2^(e'+1) <= n/d : N(e'+1)/D(e'+1) <= N e / D e <= n / d *)
  assert (A2 : N2 (e' + 1) * d <= n * D2 (e' + 1)).
  { apply (cross_trans _ _ (N2 e) (D2 e)); lia. }
  (* n/d <= n'/d' *)
  pose proof (cross_trans (N2 (e' + 1)) (D2 (e' + 1)) n d n' d'
                ltac:(lia) ltac:(lia) ltac:(lia) ltac:(lia) ltac:(lia)).
  lia.
Qed.


Lemma pow52 : N2 52 = 2 ^ 52 /\ D2 52 = 1 /\ N2 53 = 2 ^ 53 /\ D2 53 = 1.
Proof. by vm_compute. Qed.

(** the mantissa chosen by [fl] *)
Lemma mantissa_bounds n d :
  0 < n -> 0 < d ->
  let u := expo n d - 52 in
  2 ^ 52 <= rne (n * D2 u) (d * N2 u) <= 2 ^ 53.
Proof.
  intros Hn Hd u. destruct (expo_spec n d Hn Hd) as [H1 H2].
  pose proof (ND_add u 52) as E1. pose proof (ND_add u 53) as E2.
  destruct pow52 as (P1 & P2 & P3 & P4). rewrite P1, P2 in E1. rewrite P3, P4 in E2.
  replace (u + 52) with (expo n d) in E1 by (unfold u; lia).
  replace (u + 53) with (expo n d + 1) in E2 by (unfold u; lia).
  pose proof (N2_pos u). pose proof (D2_pos u).
  pose proof (N2_pos (expo n d)). pose proof (D2_pos (expo n d)).
  pose proof (N2_pos (expo n d + 1)). pose proof (D2_pos (expo n d + 1)).
  split.
  - apply rne_lower; [nia|].
    apply (Z.mul_le_mono_pos_r _ _ (D2 (expo n d))); [lia|].
    replace (2 ^ 52 * (d * N2 u) * D2 (expo n d))
      with (d * (D2 (expo n d) * N2 u * 2 ^ 52)) by ring.
    rewrite <- E1. 
    replace (d * (N2 (expo n d) * D2 u * 1)) with (d * N2 (expo n d) * D2 u) by ring.
    replace (n * D2 u * D2 (expo n d)) with (n * D2 (expo n d) * D2 u) by ring.
    apply Z.mul_le_mono_nonneg_r; lia.
  - apply rne_upper; [nia|].
    apply (Z.mul_le_mono_pos_r _ _ (D2 (expo n d + 1))); [lia|].
    replace (2 ^ 53 * (d * N2 u) * D2 (expo n d + 1))
      with (d * (D2 (expo n d + 1) * N2 u * 2 ^ 53)) by ring.
    rewrite <- E2.
    replace (d * (N2 (expo n d + 1) * D2 u * 1)) with (d * N2 (expo n d + 1) * D2 u) by ring.
    replace (n * D2 u * D2 (expo n d + 1)) with (n * D2 (expo n d + 1) * D2 u) by ring.
    apply Z.mul_le_mono_nonneg_r; lia.
Qed.

Lemma fl_wf n d : 0 <= n -> 0 < d -> wf (fl n d).
Proof.
  intros Hn Hd. unfold fl, wf. destruct (Z.eqb_spec n 0); simpl; [lia|].
  pose proof (mantissa_bounds n d ltac:(lia) Hd) as [H _]. cbv zeta in H.
  pose proof (N2_pos (expo n d - 52)). pose proof (D2_pos (expo n d - 52)).
  split; [nia|lia].
Qed.

Lemma fl_pos n d : 0 < n -> 0 < d -> 0 < num (fl n d).
Proof.
  intros Hn Hd. unfold fl. destruct (Z.eqb_spec n 0); simpl; [lia|].
  pose proof (mantissa_bounds n d ltac:(lia) Hd) as [H _]. cbv zeta in H.
  pose proof (N2_pos (expo n d - 52)). nia.
Qed.

(** 2^e <= fl(n/d) <= 2^(e+1) *)
Lemma fl_binade n d :
  0 < n -> 0 < d ->
  let e := expo n d in
  N2 e * den (fl n d) <= num (fl n d) * D2 e /\
  num (fl n d) * D2 (e + 1) <= N2 (e + 1) * den (fl n d).
Proof.
  intros Hn Hd e. unfold fl. destruct (Z.eqb_spec n 0); [lia|]. simpl.
  pose proof (mantissa_bounds n d Hn Hd) as [Hm1 Hm2]. cbv zeta in Hm1, Hm2.
  fold e in Hm1, Hm2 |- *. set (u := e - 52) in *.
  set (m := rne (n * D2 u) (d * N2 u)) in *.
  pose proof (ND_add u 52) as E1. pose proof (ND_add u 53) as E2.
  destruct pow52 as (P1 & P2 & P3 & P4). rewrite P1, P2 in E1. rewrite P3, P4 in E2.
  replace (u + 52) with e in E1 by (unfold u; lia).
  replace (u + 53) with (e + 1) in E2 by (unfold u; lia).
  pose proof (N2_pos u). pose proof (D2_pos u).
  pose proof (D2_pos e). pose proof (D2_pos (e + 1)).
  split.
  - replace (N2 e * D2 u) with (D2 e * N2 u * 2 ^ 52) by lia.
    replace (m * N2 u * D2 e) with (D2 e * N2 u * m) by ring.
    apply Z.mul_le_mono_nonneg_l; nia.
  - replace (N2 (e + 1) * D2 u) with (D2 (e + 1) * N2 u * 2 ^ 53) by lia.
    replace (m * N2 u * D2 (e + 1)) with (D2 (e + 1) * N2 u * m) by ring.
    apply Z.mul_le_mono_nonneg_l; nia.
Qed.

Lemma fl_mono n d n' d' :
  0 <= n -> 0 < d -> 0 <= n' -> 0 < d' ->
  n * d' <= n' * d -> Nle (fl n d) (fl n' d').
Proof.
  intros Hn Hd Hn' Hd' H. unfold Nle.
  destruct (Z.eq_dec n 0) as [->|Hn0].
  { pose proof (fl_wf n' d' Hn' Hd') as [? ?]. simpl. nia. }
  assert (0 < n') by nia.
  pose proof (expo_mono n d n' d' ltac:(lia) Hd ltac:(lia) Hd' H) as He.
  destruct (Z.eq_dec (expo n d) (expo n' d')) as [E|Hne].
  - unfold fl. destruct (Z.eqb_spec n 0); [lia|]. destruct (Z.eqb_spec n' 0); [lia|].
    simpl. rewrite <- E. set (u := expo n d - 52).
    pose proof (N2_pos u). pose proof (D2_pos u).
    assert (rne (n * D2 u) (d * N2 u) <= rne (n' * D2 u) (d' * N2 u)).
    { apply rne_mono; [nia|nia|].
      replace (n * D2 u * (d' * N2 u)) with (n * d' * (D2 u * N2 u)) by ring.
      replace (n' * D2 u * (d * N2 u)) with (n' * d * (D2 u * N2 u)) by ring.
      apply Z.mul_le_mono_nonneg_r; nia. }
    apply Z.mul_le_mono_nonneg_r; [lia|]. apply Z.mul_le_mono_nonneg_r; lia.
  - destruct (fl_binade n d ltac:(lia) Hd) as [_ U].
    destruct (fl_binade n' d' ltac:(lia) Hd') as [L _]. cbv zeta in U, L.
    pose proof (fl_wf n d Hn Hd) as [? ?]. pose proof (fl_wf n' d' Hn' Hd') as [? ?].
    pose proof (ND_le (expo n d + 1) (expo n' d') ltac:(lia)) as M.
    pose proof (N2_pos (expo n d + 1)). pose proof (D2_pos (expo n d + 1)).
    pose proof (N2_pos (expo n' d')). pose proof (D2_pos (expo n' d')).
    apply (cross_trans _ _ (N2 (expo n' d')) (D2 (expo n' d'))); try lia.
    apply (cross_trans _ _ (N2 (expo n d + 1)) (D2 (expo n d + 1))); lia.
Qed.

Lemma div_cross_mono a b a' b' :
  0 < b -> 0 < b' -> a * b' <= a' * b -> a / b <= a' / b'.
Proof.
  intros Hb Hb' H. apply Z.div_le_lower_bound; [done|].
  pose proof (Z.mul_div_le a b Hb).
  apply (Z.mul_le_mono_pos_r _ _ b); [done|]. nia.
Qed.

Lemma Math_round_mono x y :
  0 < den x -> 0 < den y -> Nle x y -> Math_round x <= Math_round y.
Proof.
  unfold Nle, Math_round. intros. apply div_cross_mono; nia.
Qed.


Lemma Nle_refl x : Nle x x.
Proof. unfold Nle. lia. Qed.

Lemma Nle_trans x y z : 0 < den x -> 0 < den y -> 0 < den z -> Nle x y -> Nle y z -> Nle x z.
Proof. unfold Nle. intros. by eapply (cross_trans _ _ (num y) (den y)). Qed.

Lemma Neq_Nle x y : Neq x y -> Nle x y.
Proof. unfold Neq, Nle. lia. Qed.

Lemma Neq_sym x y : Neq x y -> Neq y x.
Proof. unfold Neq. lia. Qed.

Lemma Nle_antisym x y : Nle x y -> Nle y x -> Neq x y.
Proof. unfold Neq, Nle. lia. Qed.

Lemma Neq_trans x y z : 0 < den x -> 0 < den y -> 0 < den z -> Neq x y -> Neq y z -> Neq x z.
Proof.
  intros. apply Nle_antisym; eapply (Nle_trans _ y); auto using Neq_Nle, Neq_sym.
Qed.

Lemma fl_ext n d n' d' :
  0 <= n -> 0 < d -> 0 <= n' -> 0 < d' ->
  n * d' = n' * d -> Neq (fl n d) (fl n' d').
Proof. intros. apply Nle_antisym; apply fl_mono; lia. Qed.

Lemma Math_round_ext x y :
  0 < den x -> 0 < den y -> Neq x y -> Math_round x = Math_round y.
Proof.
  intros. apply Z.le_antisymm; apply Math_round_mono; auto using Neq_Nle, Neq_sym.
Qed.

Lemma expo_unique n d e :
  0 < n -> 0 < d ->
  d * N2 e <= n * D2 e -> n * D2 (e + 1) < d * N2 (e + 1) -> expo n d = e.
Proof.
  intros Hn Hd L U. destruct (expo_spec n d Hn Hd) as [L' U'].
  set (e' := expo n d) in *.
  pose proof (N2_pos e). pose proof (D2_pos e).
  pose proof (N2_pos (e + 1)). pose proof (D2_pos (e + 1)).
  pose proof (N2_pos e'). pose proof (D2_pos e').
  pose proof (N2_pos (e' + 1)). pose proof (D2_pos (e' + 1)).
  destruct (Z.lt_trichotomy e' e) as [Hlt|[->|Hgt]]; [exfalso|done|exfalso].
  - (* n/d < 2^(e'+1) <= 2^e <= n/d *)
    pose proof (ND_le (e' + 1) e ltac:(lia)) as M.
    pose proof (cross_trans (N2 (e' + 1)) (D2 (e' + 1)) (N2 e) (D2 e) n d
                  ltac:(lia) ltac:(lia) ltac:(lia) ltac:(lia) ltac:(lia)).
    lia.
  - pose proof (ND_le (e + 1) e' ltac:(lia)) as M.
    pose proof (cross_trans (N2 (e + 1)) (D2 (e + 1)) (N2 e') (D2 e') n d
                  ltac:(lia) ltac:(lia) ltac:(lia) ltac:(lia) ltac:(lia)).
    lia.
Qed.

Lemma fl_dyadic m u :
  2 ^ 52 <= m < 2 ^ 53 ->
  fl (m * N2 u) (D2 u) = {| num := m * N2 u; den := D2 u |}.
Proof.
  intros Hm. pose proof (N2_pos u). pose proof (D2_pos u).
  assert (E : expo (m * N2 u) (D2 u) = u + 52).
  { pose proof (ND_add u 52) as E1. pose proof (ND_add u 53) as E2.
    destruct pow52 as (P1 & P2 & P3 & P4).
    rewrite P1, P2 in E1. rewrite P3, P4 in E2.
    pose proof (D2_pos (u + 52)). pose proof (D2_pos (u + 53)).
    apply expo_unique; [nia|lia| |].
    - replace (D2 u * N2 (u + 52)) with (D2 (u + 52) * N2 u * 2 ^ 52) by lia.
      replace (m * N2 u * D2 (u + 52)) with (D2 (u + 52) * N2 u * m) by ring.
      apply Z.mul_le_mono_nonneg_l; nia.
    - replace (u + 52 + 1) with (u + 53) by lia.
      replace (D2 u * N2 (u + 53)) with (D2 (u + 53) * N2 u * 2 ^ 53) by lia.
      replace (m * N2 u * D2 (u + 53)) with (D2 (u + 53) * N2 u * m) by ring.
      apply Z.mul_lt_mono_pos_l; nia. }
  unfold fl. destruct (Z.eqb_spec (m * N2 u) 0); [nia|].
  rewrite E. replace (u + 52 - 52) with u by lia.
  replace (m * N2 u * D2 u) with (m * (D2 u * N2 u)) by ring.
  rewrite rne_exact by nia. done.
Qed.

Lemma fl_idem n d :
  0 <= n -> 0 < d -> Neq (fl (num (fl n d)) (den (fl n d))) (fl n d).
Proof.
  intros Hn Hd. destruct (Z.eq_dec n 0) as [->|Hn0]; [done|].
  pose proof (mantissa_bounds n d ltac:(lia) Hd) as [Hm1 Hm2]. cbv zeta in Hm1, Hm2.
  unfold fl at 2 3 4. destruct (Z.eqb_spec n 0); [lia|]. simpl.
  set (u := expo n d - 52) in *. set (m := rne (n * D2 u) (d * N2 u)) in *.
  pose proof (N2_pos u). pose proof (D2_pos u).
  destruct (Z.eq_dec m (2 ^ 53)) as [E|Hne].
  - pose proof (ND_add u 1) as E1. change (D2 1) with 1 in E1. change (N2 1) with 2 in E1.
    pose proof (N2_pos (u + 1)). pose proof (D2_pos (u + 1)).
    assert (R : m * N2 u * D2 (u + 1) = 2 ^ 52 * N2 (u + 1) * D2 u) by (rewrite E; lia).
    pose proof (fl_ext (m * N2 u) (D2 u) (2 ^ 52 * N2 (u + 1)) (D2 (u + 1))
                  ltac:(nia) ltac:(lia) ltac:(nia) ltac:(lia) R) as X.
    rewrite (fl_dyadic (2 ^ 52) (u + 1)) in X by lia.
    pose proof (fl_wf (m * N2 u) (D2 u) ltac:(nia) ltac:(lia)) as [_ ?].
    eapply Neq_trans; [..|exact X|]; simpl; try lia. unfold Neq. simpl. lia.
  - rewrite fl_dyadic by lia. done.
Qed.

Lemma fl_int n : 0 <= n < 2 ^ 53 -> Neq (fl n 1) {| num := n; den := 1 |}.
Proof.
  intros Hn. destruct (Z.eq_dec n 0) as [->|Hn0]; [done|].
  pose proof (Z.log2_spec n ltac:(lia)) as [L U].
  pose proof (Z.log2_nonneg n).
  assert (Hl : Z.log2 n < 53).
  { apply Z.log2_lt_pow2; lia. }
  set (u := Z.log2 n - 52).
  assert (EN : N2 u = 1) by (unfold N2; rewrite Z.max_r by lia; done).
  assert (ED : D2 u = 2 ^ (52 - Z.log2 n))
    by (unfold D2; rewrite Z.max_l by lia; f_equal; lia).
  assert (P : 2 ^ 52 = 2 ^ Z.log2 n * 2 ^ (52 - Z.log2 n))
    by (rewrite <- Z.pow_add_r by lia; f_equal; lia).
  assert (P' : 2 ^ 53 = 2 ^ Z.succ (Z.log2 n) * 2 ^ (52 - Z.log2 n))
    by (rewrite <- Z.pow_add_r by lia; f_equal; lia).
  assert (0 < 2 ^ (52 - Z.log2 n)) by (apply Z.pow_pos_nonneg; lia).
  pose proof (fl_ext n 1 (n * D2 u * N2 u) (D2 u)
                ltac:(lia) ltac:(lia) ltac:(nia) ltac:(lia) ltac:(rewrite EN; lia)) as X.
  rewrite fl_dyadic in X by (rewrite ED; nia).
  pose proof (fl_wf n 1 ltac:(lia) ltac:(lia)) as [_ ?].
  eapply Neq_trans; [..|exact X|]; simpl; try lia. unfold Neq. simpl. rewrite EN. lia.
Qed.

Lemma double_fl n d : 0 <= n -> 0 < d -> double (fl n d).
Proof. intros. split; [by apply fl_wf|by apply fl_idem]. Qed.

Lemma fadd_wf x y : wf x -> wf y -> wf (fadd x y).
Proof. intros [? ?] [? ?]. apply fl_wf; nia. Qed.

Lemma fadd_double x y : wf x -> wf y -> double (fadd x y).
Proof. intros [? ?] [? ?]. apply double_fl; nia. Qed.

Lemma fadd_ge x y : double x -> wf y -> Nle x (fadd x y).
Proof.
  intros [[Hx1 Hx2] Hx] [Hy1 Hy2].
  pose proof (fl_wf (num x) (den x) Hx1 Hx2) as [_ ?].
  pose proof (fadd_wf x y ltac:(done) ltac:(done)) as [_ ?].
  apply (Nle_trans _ (fl (num x) (den x))); try done.
  - by apply Neq_Nle, Neq_sym.
  - apply fl_mono; nia.
Qed.

Lemma of_Z_wf n : 0 <= n -> wf (of_Z n).
Proof. intros. apply fl_wf; lia. Qed.

Lemma fadd_int x a len :
  wf x -> Neq x {| num := a; den := 1 |} ->
  0 <= a -> 0 <= len -> a + len < 2 ^ 53 ->
  Neq (fadd x (of_Z len)) {| num := a + len; den := 1 |}.
Proof.
  intros [Hx1 Hx2] Hx Ha Hl Hs.
  pose proof (fl_int len ltac:(lia)) as Hy. fold (of_Z len) in Hy.
  pose proof (of_Z_wf len Hl) as [Hy1 Hy2].
  unfold Neq in Hx, Hy. simpl in Hx, Hy.
  pose proof (fadd_wf x (of_Z len) ltac:(done) ltac:(done)) as [_ ?].
  pose proof (fl_wf (a + len) 1 ltac:(lia) ltac:(lia)) as [_ ?].
  eapply (Neq_trans _ (fl (a + len) 1)); simpl; try lia.
  - apply fl_ext; nia.
  - apply fl_int. lia.
Qed.

Lemma Math_round_nonneg x : wf x -> 0 <= Math_round x.
Proof. intros [? ?]. unfold Math_round. apply Z.div_pos; lia. Qed.

Lemma fdiv_wf x y : wf x -> wf y -> 0 < num y -> wf (fdiv x y).
Proof. intros [? ?] [? ?] ?. apply fl_wf; nia. Qed.

Lemma fmul_wf x y : wf x -> wf y -> wf (fmul x y).
Proof. intros [? ?] [? ?]. apply fl_wf; nia. Qed.

Lemma fdiv_mono x x' y :
  wf x -> wf x' -> wf y -> 0 < num y -> Nle x x' -> Nle (fdiv x y) (fdiv x' y).
Proof.
  intros [? ?] [? ?] [? ?] ? HH. unfold Nle in HH. apply fl_mono; try nia.
  replace (num x * den y * (den x' * num y)) with (num x * den x' * (den y * num y)) by ring.
  replace (num x' * den y * (den x * num y)) with (num x' * den x * (den y * num y)) by ring.
  apply Z.mul_le_mono_nonneg_r; nia.
Qed.

Lemma fmul_mono x x' y :
  wf x -> wf x' -> wf y -> Nle x x' -> Nle (fmul x y) (fmul x' y).
Proof.
  intros [? ?] [? ?] [? ?] HH. unfold Nle in HH. apply fl_mono; try nia.
  replace (num x * num y * (den x' * den y)) with (num x * den x' * (num y * den y)) by ring.
  replace (num x' * num y * (den x * den y)) with (num x' * den x * (num y * den y)) by ring.
  apply Z.mul_le_mono_nonneg_r; nia.
Qed.

Lemma progress_of_nonneg l t : wf l -> wf t -> 0 < num t -> 0 <= progress_of l t.
Proof.
  intros. apply Math_round_nonneg, fmul_wf; [by apply fdiv_wf|by apply of_Z_wf].
Qed.

Lemma progress_of_mono l l' t :
  wf l -> wf l' -> wf t -> 0 < num t -> Nle l l' ->
  progress_of l t <= progress_of l' t.
Proof.
  intros Hl Hl' Ht Hp H. unfold progress_of.
  pose proof (of_Z_wf 100 ltac:(lia)) as Hh.
  pose proof (fdiv_wf l t Hl Ht Hp) as Hq. pose proof (fdiv_wf l' t Hl' Ht Hp) as Hq'.
  apply Math_round_mono; [apply fmul_wf; done..|].
  apply fmul_mono; try done. by apply fdiv_mono.
Qed.

Lemma progress_of_full l t :
  wf l -> wf t -> 0 < num t -> Neq l t -> progress_of l t = 100.
Proof.
  intros [Hl1 Hl2] [Ht1 Ht2] Hp H. unfold Neq in H.
  assert (Hlp : 0 < num l) by nia.
  unfold progress_of.
  assert (Hq : Neq (fdiv l t) (fl 1 1)) by (apply fl_ext; nia).
  pose proof (fdiv_wf l t ltac:(done) ltac:(done) Hp) as [Hq1 Hq2].
  pose proof (of_Z_wf 100 ltac:(lia)) as [Hh1 Hh2].
  assert (Hm : Neq (fmul (fdiv l t) (of_Z 100)) (fmul (fl 1 1) (of_Z 100))).
  { unfold Neq in Hq. apply fl_ext; try nia.
    - vm_compute. done.
    - vm_compute. done.
    - replace (num (fdiv l t) * num (of_Z 100) * (den (fl 1 1) * den (of_Z 100)))
        with (num (fdiv l t) * den (fl 1 1) * (num (of_Z 100) * den (of_Z 100))) by ring.
      rewrite Hq. ring. }
  assert (Hfm : 0 < den (fmul (fdiv l t) (of_Z 100))).
  { apply fmul_wf; split; assumption. }
  rewrite (Math_round_ext (fmul (fdiv l t) (of_Z 100)) (fmul (fl 1 1) (of_Z 100)));
    [by vm_compute| |by vm_compute|exact Hm].
  exact Hfm.
Qed.

Lemma progress_of_le_100 l t :
  wf l -> wf t -> 0 < num t -> Nle l t -> progress_of l t <= 100.
Proof.
  intros Hl Ht Hp H. rewrite <- (progress_of_full t t Ht Ht Hp eq_refl).
  by apply progress_of_mono.
Qed.

End DoubleFacts.

(** ** Facts about the download handler *)

Module DownloadFacts.
Import JS Double DoubleFacts Downloader.

Lemma read_loop_eq key total pending fin collected loaded :
  read_loop key total pending fin collected loaded =
  (loop_effects key total loaded pending ++ [ReaderRead],
   match fin with
   | EndOfStream => Some (collected ++ pending)
   | StreamError => None
   end).
Proof.
  revert collected loaded. induction pending as [|c cs IH]; intros; simpl.
  - rewrite app_nil_r. by destruct fin.
  - rewrite IH. unfold loop_effects. simpl. rewrite <- app_assoc. done.
Qed.

Lemma progress_values_app key es es' :
  progress_values key (es ++ es') =
  progress_values key es ++ progress_values key es'.
Proof.
  induction es as [|e es IH]; [done|]. simpl.
  destruct e; try done. destruct (String.eqb key0 key); simpl; by rewrite IH.
Qed.

Lemma progress_values_loop key total loaded cs :
  progress_values key (loop_effects key total loaded cs) =
  map (fun x => progress_of x total) (running loaded cs).
Proof.
  unfold loop_effects. induction (running loaded cs) as [|x xs IH]; [done|].
  simpl. rewrite String.eqb_refl. by rewrite IH.
Qed.

Lemma handleDownload_shape st h key :
  key ∉ downloadingFiles st ->
  handleDownload st h key =
  [DownloadingAdd key; ProgressSet key 0] ++ middle h key ++
  [DownloadingDelete key; ProgressDelete key].
Proof.
  intros Hk. unfold handleDownload, middle. rewrite decide_False by done.
  assert (H : exists es', (try_block h key).1
              = [DownloadingAdd key; ProgressSet key 0] ++ es').
  { unfold try_block. destruct (generateDownloadUrl h key) as [es_url url].
    repeat case_match; simpl; eauto. }
  destruct H as [es' H]. destruct (try_block h key) as [es c]. simpl in H.
  subst es. simpl. by rewrite <- app_assoc.
Qed.

(** The loop is the only place between the ends that writes progress. *)
Lemma middle_progress h key :
  progress_values key (middle h key) = [] \/
  exists total cs fin,
    answered h key total cs fin /\
    progress_values key (middle h key) =
    map (fun x => progress_of x (of_Z total)) (running (of_Z 0) cs).
Proof.
  unfold middle, try_block, generateDownloadUrl.
  destruct (s3Client h) eqn:Hc; [|left; done].
  destruct (getSignedUrl h key) as [url|] eqn:Hu; [|left; done].
  destruct (String.eqb_spec url "#") as [->|Hne]; [left; done|].
  destruct (fetch h url) as [r|] eqn:Hf; [|left; done].
  destruct (ok r) eqn:Hok; [|left; done]. simpl.
  destruct (body r) as [s|] eqn:Hb; [|left; by destruct (blob r)].
  destruct (total_of r) as [total|] eqn:Ht; [|left; by destruct (blob r)].
  destruct (Z.ltb_spec 0 total) as [Hpos|]; [|left; by destruct (blob r)].
  right. exists total, (chunks s), (ending s). split.
  { exists url, r, s. split_and!; done. }
  rewrite read_loop_eq. destruct (ending s); simpl;
    rewrite !progress_values_app, progress_values_loop; simpl;
    by rewrite !app_nil_r.
Qed.

Lemma running_wf l cs :
  wf l -> Forall wf (running l cs).
Proof.
  revert l. induction cs as [|c cs IH]; intros l Hl; simpl; [constructor|].
  assert (wf (fadd l (of_Z (Z.of_nat (length c)))))
    by (apply fadd_wf; [done|apply of_Z_wf; lia]).
  constructor; [done|by apply IH].
Qed.

(** [loaded] never decreases. *)
Lemma running_sorted l cs :
  double l -> Sorted Nle (l :: running l cs).
Proof.
  revert l. induction cs as [|c cs IH]; intros l Hl; simpl.
  { repeat constructor. }
  assert (Hy : wf (of_Z (Z.of_nat (length c)))) by (apply of_Z_wf; lia).
  constructor.
  - apply IH. by apply fadd_double; [apply Hl|].
  - constructor. by apply fadd_ge.
Qed.

Lemma progress_sorted t l cs :
  wf t -> 0 < num t -> double l ->
  Sorted Z.le (map (fun x => progress_of x t) (l :: running l cs)).
Proof.
  intros Ht Hp Hl.
  pose proof (running_sorted l cs Hl) as Hs.
  assert (Hw : Forall wf (l :: running l cs)).
  { constructor; [apply Hl|]. apply running_wf, Hl. }
  induction Hs as [|x xs Hs IH Hhd]; [constructor|].
  apply Forall_cons in Hw as [Hx Hxs]. simpl. constructor; [by apply IH|].
  destruct Hhd as [|y ys Hxy]; constructor.
  apply Forall_cons in Hxs as [Hy _]. by apply progress_of_mono.
Qed.

Lemma byte_count_cons c cs :
  byte_count (c :: cs) = Z.of_nat (length c) + byte_count cs.
Proof. unfold byte_count. simpl. rewrite length_app. lia. Qed.

Lemma byte_count_nonneg cs : 0 <= byte_count cs.
Proof. unfold byte_count. lia. Qed.

(** Below 2^53 the additions are exact. *)
Lemma running_exact l a cs :
  wf l -> Neq l {| num := a; den := 1 |} -> 0 <= a ->
  a + byte_count cs < 2 ^ 53 ->
  Forall (fun x => wf x /\ exists n, a <= n <= a + byte_count cs /\
                                 Neq x {| num := n; den := 1 |})
         (running l cs) /\
  exists x, last (l :: running l cs) = Some x /\ wf x /\
            Neq x {| num := a + byte_count cs; den := 1 |}.
Proof.
  revert l a. induction cs as [|c cs IH]; intros l a Hl Hla Ha Hs; simpl.
  { split; [constructor|]. exists l. unfold byte_count. simpl. by rewrite Z.add_0_r. }
  rewrite byte_count_cons in Hs |- *. pose proof (byte_count_nonneg cs).
  set (len := Z.of_nat (length c)) in *.
  set (l' := fadd l (of_Z len)).
  assert (Hl' : wf l') by (apply fadd_wf; [done|apply of_Z_wf; lia]).
  assert (Hla' : Neq l' {| num := a + len; den := 1 |})
    by (apply fadd_int; try done; lia).
  destruct (IH l' (a + len) Hl' Hla' ltac:(lia) ltac:(lia))
    as [IH1 (z & Hz1 & Hz2 & Hz3)].
  split.
  - constructor.
    + split; [done|]. exists (a + len). split; [lia|done].
    + eapply Forall_impl; [exact IH1|]. simpl.
      intros x (Hx & n & Hn & Hxn). split; [done|]. exists n. split; [lia|done].
  - replace (a + (len + byte_count cs)) with (a + len + byte_count cs) by lia.
    exists z. split; [exact Hz1|done].
Qed.

Lemma Neq_int_le x y a b :
  wf x -> wf y ->
  Neq x {| num := a; den := 1 |} -> Neq y {| num := b; den := 1 |} ->
  a <= b -> Nle x y.
Proof.
  intros [? ?] [? ?]. unfold Neq, Nle. simpl. intros Hx Hy Hab.
  rewrite !Z.mul_1_r in *. rewrite Hx, Hy.
  replace (a * den x * den y) with (a * (den x * den y)) by ring.
  replace (b * den y * den x) with (b * (den x * den y)) by ring.
  apply Z.mul_le_mono_nonneg_r; nia.
Qed.

Lemma view_congr key e st1 st2 :
  view key st1 = view key st2 ->
  view key (apply_effect e st1) = view key (apply_effect e st2).
Proof.
  unfold view. intros [= H1 H2].
  assert (Hiff : key ∈ downloadingFiles st1 <-> key ∈ downloadingFiles st2).
  { rewrite <- (bool_decide_eq_true (key ∈ downloadingFiles st1)), H1.
    apply bool_decide_eq_true. }
  destruct e as [k|k n|k|k| | | | | |]; simpl; try (by rewrite H1, H2); f_equal;
    try done.
  - apply bool_decide_ext. by rewrite !elem_of_union, Hiff.
  - destruct (decide (k = key)) as [->|];
      [by rewrite !lookup_insert_eq|by rewrite !lookup_insert_ne].
  - apply bool_decide_ext. by rewrite !elem_of_difference, Hiff.
  - destruct (decide (k = key)) as [->|];
      [by rewrite !lookup_delete_eq|by rewrite !lookup_delete_ne].
Qed.

Lemma view_run_congr key es st1 st2 :
  view key st1 = view key st2 ->
  view key (run es st1) = view key (run es st2).
Proof.
  revert st1 st2. induction es as [|e es IH]; intros st1 st2 H; [done|].
  simpl. by apply IH, view_congr.
Qed.

Lemma view_foreign key e st :
  effect_key e <> Some key -> view key (apply_effect e st) = view key st.
Proof.
  unfold view. intros H.
  destruct e as [k|k n|k|k| | | | | |]; simpl in *; try done;
    assert (k <> key) by congruence; f_equal.
  - apply bool_decide_ext. rewrite elem_of_union, elem_of_singleton.
    split; [intros [?|?]; [done|congruence]|by left].
  - by rewrite lookup_insert_ne.
  - apply bool_decide_ext. rewrite elem_of_difference, elem_of_singleton.
    split; [by intros [? _]|]. intros ?. split; [done|congruence].
  - by rewrite lookup_delete_ne.
Qed.

(** Updates for other keys do not change what is recorded for this one. *)
Lemma view_interleave key own others merged st :
  interleave own others merged ->
  Forall (fun e => effect_key e <> Some key) others ->
  view key (run merged st) = view key (run own st).
Proof.
  intros Hi. revert st. induction Hi as [|x l r m Hi IH|x l r m Hi IH];
    intros st Hf; simpl.
  - done.
  - by apply IH.
  - apply Forall_cons in Hf as [Hx Hf]. rewrite (IH _ Hf).
    by apply view_run_congr, view_foreign.
Qed.

Lemma run_app es es' st : run (es ++ es') st = run es' (run es st).
Proof. unfold run. by rewrite fold_left_app. Qed.

Lemma last_map {A B} (f : A -> B) (l : list A) :
  last (map f l) = option_map f (last l).
Proof.
  induction l as [|x l IH]; [done|].
  simpl map. rewrite !last_cons, IH. by destruct (last l).
Qed.

Lemma elem_of_progress_values key n es :
  In (ProgressSet key n) es <-> n ∈ progress_values key es.
Proof.
  induction es as [|e es IH]; simpl.
  { split; [done|by intros ?%elem_of_nil]. }
  destruct e as [k|k m|k|k| | | | | |];
    try (rewrite <- IH; split; [by intros [?|?]|by right]).
  destruct (String.eqb_spec k key) as [->|Hne].
  - rewrite elem_of_cons, <- IH. split.
    + intros [[= ->]|?]; [by left|by right].
    + intros [->|?]; [by left|by right].
  - rewrite <- IH. split; [|by right]. intros [[= ? ?]|?]; done.
Qed.

Lemma answered_unique h key total cs fin total' cs' fin' :
  answered h key total cs fin -> answered h key total' cs' fin' ->
  total = total' /\ cs = cs' /\ fin = fin'.
Proof.
  intros (url & r & s & _ & Hu & _ & Hf & _ & Ht & _ & Hb & <- & <-)
         (url' & r' & s' & _ & Hu' & _ & Hf' & _ & Ht' & _ & Hb' & <- & <-).
  simplify_eq. done.
Qed.

Lemma middle_progress_answered h key total cs fin :
  answered h key total cs fin ->
  progress_values key (middle h key) =
  map (fun x => progress_of x (of_Z total)) (running (of_Z 0) cs).
Proof.
  intros Ha. destruct (middle_progress h key) as [E|(t & c & f & Ha' & E)].
  - rewrite E. destruct Ha as (url & r & s & Hc & Hu & Hne & Hf & Hok & Ht & Hpos
                                 & Hb & <- & <-).
    revert E. unfold middle, try_block, generateDownloadUrl.
    rewrite Hc, Hu. destruct (String.eqb_spec url "#"); [done|].
    rewrite Hf, Hok, Hb, Ht. simpl.
    destruct (Z.ltb_spec 0 total); [|lia].
    rewrite read_loop_eq. destruct (ending s); simpl;
      rewrite !progress_values_app, progress_values_loop; simpl;
      rewrite !app_nil_r; by intros ->.
  - destruct (answered_unique _ _ _ _ _ _ _ _ Ha Ha') as (-> & -> & ->). done.
Qed.

Lemma progress_of_zero t : progress_of (of_Z 0) t = 0.
Proof. reflexivity. Qed.

Lemma of_Z_pos n : 0 < n -> 0 < num (of_Z n).
Proof. intros. apply fl_pos; lia. Qed.

Lemma double_of_Z n : 0 <= n -> double (of_Z n).
Proof. intros. apply double_fl; lia. Qed.

Lemma of_Z_int n : safe n -> Neq (of_Z n) {| num := n; den := 1 |}.
Proof. apply fl_int. Qed.

End DownloadFacts.

Import JS Classifier SortFacts GroupFacts Double DoubleFacts Downloader DownloadFacts.


(** ** The section classifier: claims *)

(** C1 (as amended).  When every record has a non-empty key and the keys
    are pairwise distinct, the keys shown in the sections are exactly the
    keys of the input, and no key is shown twice, be it in one section or
    in two. *)
Theorem C1_sections_cover_keys (cmp : string -> string -> Z) (l : list S3Object) :
  Forall (fun f => has_key f = true) l ->
  NoDup (keys l) ->
  (forall k, k ∈ keys (section_members (sortFilesIntoSections cmp l)) <-> k ∈ keys l)
  /\ NoDup (keys (section_members (sortFilesIntoSections cmp l))).
Proof.
  intros Hk Hnd.
  pose proof (section_members_perm cmp l) as Hp.
  rewrite (kept_all l Hk) in Hp.
  assert (Hkeys : keys (section_members (sortFilesIntoSections cmp l)) ≡ₚ keys l).
  { unfold keys. by rewrite Hp. }
  split.
  - intros k. by rewrite Hkeys.
  - by rewrite Hkeys.
Qed.

Lemma C1_sections_cover_keys_witness :
  NoDup (keys (section_members
    (sortFilesIntoSections defaultCompare [obj "en-a"; obj "readme.txt"; obj "en-b"]))).
Proof.
  apply (C1_sections_cover_keys defaultCompare
           [obj "en-a"; obj "readme.txt"; obj "en-b"]).
  - repeat constructor.
  - apply (bool_decide_unpack _). vm_compute. exact I.
Defined.

(** C1, as stated, fails: a record whose key is the empty string has a
    defined key, and the classifier drops it. *)
Lemma C1_empty_key_is_lost :
  Forall (fun f => is_Some (Key f)) [obj ""] /\
  "" ∈ keys [obj ""] /\
  forall cmp, "" ∉ keys (section_members (sortFilesIntoSections cmp [obj ""])).
Proof.
  split; [|split].
  - repeat constructor. by eexists.
  - vm_compute. left.
  - intros cmp. vm_compute. apply not_elem_of_nil.
Qed.








(** C10.  A record without a key is in no section, and the sections then
    hold fewer records than the input. *)
Theorem C10_keyless_dropped (cmp : string -> string -> Z) (l : list S3Object)
    (f : S3Object) :
  f ∈ l -> Key f = None ->
  (forall s, s ∈ sortFilesIntoSections cmp l -> f ∉ files s) /\
  (length (section_members (sortFilesIntoSections cmp l)) < length l)%nat.
Proof.
  intros Hf Hk.
  assert (Ht : ~ is_Some (target f)).
  { unfold target. rewrite Hk. by intros []. }
  pose proof (section_members_perm cmp l) as Hp. split.
  - intros s Hs Hin.
    assert (H : f ∈ section_members (sortFilesIntoSections cmp l))
      by (apply elem_of_section_members; eauto).
    rewrite Hp in H. apply list_elem_of_filter in H as [H _]. done.
  - rewrite Hp. clear Hp.
    induction l as [|g l IH]; [by apply elem_of_nil in Hf|].
    rewrite filter_cons. pose proof (length_filter (fun f => is_Some (target f)) l).
    apply elem_of_cons in Hf as [<-|Hf].
    + rewrite decide_False by done. simpl. lia.
    + specialize (IH Hf). destruct (decide _); simpl; lia.
Qed.

Lemma C10_keyless_dropped_witness :
  (length (section_members (sortFilesIntoSections defaultCompare
     [obj "en-a"; {| Key := None; Size := Some 3%Z; LastModified := None |}]))
   < 2)%nat.
Proof.
  apply (C10_keyless_dropped defaultCompare
     [obj "en-a"; {| Key := None; Size := Some 3%Z; LastModified := None |}]
     {| Key := None; Size := Some 3%Z; LastModified := None |}).
  - right. left.
  - reflexivity.
Defined.

(** ** The download handler: claims *)

(** C2 (as amended).  For a response with a body that declares a positive
    length, the handler reads chunk after chunk until the stream is done
    and after each chunk writes [Math.round(loaded / total * 100)], the
    nearest integer and not the floor; without such a length it writes no
    progress and takes the whole body in one step. *)
Theorem C2_streams_and_rounds (st : AppState) (h : Host) (key url : string)
    (r : Response) (s : ReadableStream) :
  key ∉ downloadingFiles st ->
  s3Client h = true -> getSignedUrl h key = Some url -> url <> "#" ->
  fetch h url = Some r -> ok r = true ->
  body r = Some s -> ending s = EndOfStream ->
  handleDownload st h key =
    [DownloadingAdd key; ProgressSet key 0; GetSignedUrl key; Fetch url] ++
    match total_of r with
    | Some total =>
        if 0 <? total then
          flat_map
            (fun loaded =>
               [ReaderRead;
                ProgressSet key
                  (Math_round (fmul (fdiv loaded (of_Z total)) (of_Z 100)))])
            (running (of_Z 0) (chunks s))
          ++ [ReaderRead]
        else [ResponseBlob]
    | None => [ResponseBlob]
    end ++
    [LinkClick key (concat (chunks s));
     DownloadingDelete key; ProgressDelete key].
Proof.
  intros Hk Hc Hu Hne Hf Hok Hb He.
  unfold handleDownload, try_block, generateDownloadUrl, blob.
  rewrite decide_False by done. rewrite Hc, Hu.
  destruct (String.eqb_spec url "#"); [done|].
  destruct s as [cs fin]. simpl in He. subst fin.
  rewrite Hf, Hok, Hb. simpl.
  destruct (total_of r) as [total|]; [|done].
  destruct (0 <? total); [|done].
  rewrite read_loop_eq. simpl. unfold loop_effects, progress_of.
  by rewrite <- !app_assoc.
Qed.

Lemma C2_streams_and_rounds_witness :
  handleDownload idle (serving (streamed "8" [bytes 5; bytes 3])) "k" =
  [DownloadingAdd "k"; ProgressSet "k" 0; GetSignedUrl "k";
   Fetch "https://sos/k"; ReaderRead; ProgressSet "k" 63; ReaderRead;
   ProgressSet "k" 100; ReaderRead; LinkClick "k" (bytes 8);
   DownloadingDelete "k"; ProgressDelete "k"].
Proof.
  rewrite (C2_streams_and_rounds idle (serving (streamed "8" [bytes 5; bytes 3]))
             "k" "https://sos/k" (streamed "8" [bytes 5; bytes 3])
             {| chunks := [bytes 5; bytes 3]; ending := EndOfStream |}).
  - reflexivity.
  - apply not_elem_of_empty.
  - reflexivity.
  - reflexivity.
  - discriminate.
  - reflexivity.
  - reflexivity.
  - reflexivity.
  - reflexivity.
Defined.

(** C2, as stated, fails: after 5 of 8 declared bytes the handler writes
    63, the floor of 62.5 is 62. *)
Lemma C2_progress_is_not_the_floor :
  In (ProgressSet "k" 63)
     (handleDownload idle (serving (streamed "8" [bytes 5; bytes 3])) "k") /\
  5 * 100 / 8 = 62 /\
  ~ In (ProgressSet "k" (5 * 100 / 8))
       (handleDownload idle (serving (streamed "8" [bytes 5; bytes 3])) "k").
Proof.
  split; [|split].
  - vm_compute. tauto.
  - reflexivity.
  - vm_compute. intuition discriminate.
Qed.

(** C5.  Called for a key that is being downloaded, the handler does
    nothing: no request is made and the state stays as it is. *)
Theorem C5_second_call_is_noop (st : AppState) (h : Host) (key : string) :
  key ∈ downloadingFiles st ->
  handleDownload st h key = [] /\
  Forall (fun e => is_request e = false) (handleDownload st h key) /\
  run (handleDownload st h key) st = st.
Proof.
  intros Hk. unfold handleDownload. rewrite decide_True by done.
  split; [done|]. split; [constructor|done].
Qed.

Lemma C5_second_call_is_noop_witness :
  handleDownload {| downloadingFiles := {["k"]}; downloadProgress := {["k" := 40]} |}
                 (serving (streamed "8" [bytes 5; bytes 3])) "k" = [].
Proof.
  apply (C5_second_call_is_noop
           {| downloadingFiles := {["k"]}; downloadProgress := {["k" := 40]} |}
           (serving (streamed "8" [bytes 5; bytes 3])) "k").
  simpl. apply elem_of_singleton. reflexivity.
Defined.

(** C6.  Whatever the host answers, when the handler has finished the key
    is in neither collection, also when handlers of other keys ran in
    between. *)
Theorem C6_state_cleared_at_the_end (st : AppState) (h : Host) (key : string)
    (others merged : list effect) :
  key ∉ downloadingFiles st ->
  interleave (handleDownload st h key) others merged ->
  Forall (fun e => effect_key e <> Some key) others ->
  (key ∉ downloadingFiles (run merged st)) /\
  downloadProgress (run merged st) !! key = None.
Proof.
  intros Hk Hi Hf.
  pose proof (view_interleave key _ _ _ st Hi Hf) as Hv.
  rewrite (handleDownload_shape st h key Hk) in Hv.
  rewrite !app_assoc, run_app in Hv. unfold view in Hv. simpl in Hv.
  injection Hv as H1 H2. rewrite lookup_delete_eq in H2. split; [|done].
  destruct (decide (key ∈ downloadingFiles (run merged st))) as [Hin|]; [|done].
  rewrite (bool_decide_eq_true_2 _ Hin) in H1. symmetry in H1.
  apply bool_decide_eq_true_1, elem_of_difference in H1 as [_ H1].
  exfalso. by apply H1, elem_of_singleton.
Qed.

Lemma C6_state_cleared_at_the_end_witness :
  "k" ∉ downloadingFiles
    (run [DownloadingAdd "k"; ProgressSet "k" 0; DownloadingAdd "j";
          DownloadingDelete "k"; ProgressSet "j" 0; ProgressDelete "k"] idle).
Proof.
  apply (C6_state_cleared_at_the_end idle
           {| s3Client := false; getSignedUrl := fun _ => None;
              fetch := fun _ => None |}
           "k" [DownloadingAdd "j"; ProgressSet "j" 0]).
  - apply not_elem_of_empty.
  - vm_compute. repeat constructor.
  - repeat constructor; discriminate.
Defined.

(** C7 (as amended).  For a download whose response declares a positive
    length and whose stream ends normally, the values written for the key
    never decrease; the last one is 100 when the bytes delivered add up to
    the declared length, a length that a Number holds exactly. *)
Theorem C7_progress_never_decreases (st : AppState) (h : Host) (key : string)
    (total : Z) (cs : list (list byte)) :
  key ∉ downloadingFiles st ->
  answered h key total cs EndOfStream ->
  StronglySorted Z.le (progress_values key (handleDownload st h key)) /\
  (safe total -> byte_count cs = total ->
   last (progress_values key (handleDownload st h key)) = Some 100).
Proof.
  intros Hk Ha.
  assert (Hpos : 0 < total) by (destruct Ha as (?&?&?&?&?&?&?&?&?&?&?); tauto).
  rewrite (handleDownload_shape st h key Hk), !progress_values_app.
  rewrite (middle_progress_answered h key total cs EndOfStream Ha).
  simpl. rewrite String.eqb_refl, app_nil_r. simpl.
  assert (Hw : wf (of_Z total)) by (apply of_Z_wf; lia).
  assert (Hn : 0 < num (of_Z total)) by (by apply of_Z_pos).
  split.
  - apply Sorted_StronglySorted; [intros ???; lia|].
    change (Sorted Z.le (map (fun x => progress_of x (of_Z total))
                             (of_Z 0 :: running (of_Z 0) cs))).
    apply progress_sorted; [done|done|]. apply double_of_Z. lia.
  - intros Hs Hb. unfold safe in Hs.
    assert (H0 : wf (of_Z 0)) by (apply of_Z_wf; lia).
    assert (Hz : Neq (of_Z 0) {| num := 0; den := 1 |}) by done.
    destruct (running_exact (of_Z 0) 0 cs H0 Hz ltac:(lia) ltac:(lia))
      as [_ (x & Hx1 & Hx2 & Hx3)].
    destruct cs as [|c cs']; [unfold byte_count in Hb; simpl in Hb; lia|].
    rewrite Z.add_0_l, Hb in Hx3.
    assert (Hx : progress_of x (of_Z total) = 100).
    { apply progress_of_full; try done.
      apply (Neq_trans _ {| num := total; den := 1 |}); simpl; try lia.
      - apply Hx2.
      - apply Hw.
      - exact Hx3.
      - by apply Neq_sym, of_Z_int. }
    remember (running (of_Z 0) (c :: cs')) as rs eqn:Ers.
    destruct rs as [|y ys]; [simpl in Ers; discriminate|].
    change (last (y :: ys) = Some x) in Hx1.
    change (last (map (fun x => progress_of x (of_Z total)) (y :: ys)) = Some 100).
    by rewrite last_map, Hx1, <- Hx.
Qed.

Lemma C7_progress_never_decreases_witness :
  StronglySorted Z.le
    (progress_values "k"
       (handleDownload idle (serving (streamed "8" [bytes 5; bytes 3])) "k")).
Proof.
  apply (C7_progress_never_decreases idle
           (serving (streamed "8" [bytes 5; bytes 3])) "k" 8 [bytes 5; bytes 3]).
  - apply not_elem_of_empty.
  - exists "https://sos/k", (streamed "8" [bytes 5; bytes 3]),
      {| chunks := [bytes 5; bytes 3]; ending := EndOfStream |}.
    split_and!; try reflexivity. discriminate.
Defined.

(** C7, as stated, fails: a body that delivers more than the declared
    length is saved all the same, and the last value written is not 100. *)
Lemma C7_last_value_is_not_100 :
  answered (serving (streamed "4" [bytes 3; bytes 3])) "k" 4
           [bytes 3; bytes 3] EndOfStream /\
  In (LinkClick "k" (bytes 6))
     (handleDownload idle (serving (streamed "4" [bytes 3; bytes 3])) "k") /\
  progress_values "k"
    (handleDownload idle (serving (streamed "4" [bytes 3; bytes 3])) "k")
  = [0; 75; 150].
Proof.
  split; [|split].
  - exists "https://sos/k", (streamed "4" [bytes 3; bytes 3]),
      {| chunks := [bytes 3; bytes 3]; ending := EndOfStream |}.
    split_and!; try reflexivity. discriminate.
  - vm_compute. tauto.
  - reflexivity.
Qed.

(** C8 (as amended).  Every value the handler writes for a key is an
    integer that is not negative; it is at most 100 as long as the body
    delivers no more than the declared length, a length that a Number
    holds exactly. *)
Theorem C8_progress_range (st : AppState) (h : Host) (key : string) (n : Z) :
  In (ProgressSet key n) (handleDownload st h key) ->
  0 <= n /\
  ((forall total cs fin, answered h key total cs fin ->
      safe total /\ byte_count cs <= total) ->
   n <= 100).
Proof.
  intros Hin.
  destruct (decide (key ∈ downloadingFiles st)) as [Hk|Hk].
  { unfold handleDownload in Hin. by rewrite decide_True in Hin. }
  rewrite (handleDownload_shape st h key Hk) in Hin.
  apply elem_of_progress_values in Hin.
  rewrite !progress_values_app in Hin. simpl in Hin.
  rewrite String.eqb_refl, app_nil_r in Hin.
  apply elem_of_cons in Hin as [->|Hin]; [split; intros; lia|].
  destruct (middle_progress h key) as [E|(total & cs & fin & Ha & E)];
    rewrite E in Hin; [by apply elem_of_nil in Hin|].
  apply list_elem_of_fmap in Hin as (x & -> & Hx).
  assert (Hpos : 0 < total) by (destruct Ha as (?&?&?&?&?&?&?&?&?&?&?); tauto).
  assert (Hw : wf (of_Z total)) by (apply of_Z_wf; lia).
  assert (Hn : 0 < num (of_Z total)) by (by apply of_Z_pos).
  assert (H0 : wf (of_Z 0)) by (apply of_Z_wf; lia).
  pose proof (running_wf (of_Z 0) cs H0) as Hall.
  rewrite Forall_forall in Hall. specialize (Hall x Hx).
  split; [by apply progress_of_nonneg|].
  intros Hb. destruct (Hb _ _ _ Ha) as [Hs Hle]. unfold safe in Hs.
  assert (Hz : Neq (of_Z 0) {| num := 0; den := 1 |}) by done.
  destruct (running_exact (of_Z 0) 0 cs H0 Hz ltac:(lia) ltac:(lia)) as [Hex _].
  rewrite Forall_forall in Hex. destruct (Hex x Hx) as (_ & m & Hm & Hxm).
  apply progress_of_le_100; try done.
  apply (Neq_int_le x (of_Z total) m total); try done; [|lia].
  apply of_Z_int. unfold safe. lia.
Qed.

Lemma C8_progress_range_witness :
  0 <= 63 /\
  ((forall total cs fin,
      answered (serving (streamed "8" [bytes 5; bytes 3])) "k" total cs fin ->
      safe total /\ byte_count cs <= total) ->
   63 <= 100).
Proof.
  apply (C8_progress_range idle (serving (streamed "8" [bytes 5; bytes 3]))
           "k" 63).
  vm_compute. tauto.
Defined.

(** C8, as stated, fails: with 25 bytes against a declared length of 10
    the handler writes 250. *)
Lemma C8_progress_exceeds_100 :
  In (ProgressSet "k" 250)
     (handleDownload idle (serving (streamed "10" [bytes 25])) "k") /\
  ~ (0 <= 250 <= 100).
Proof.
  split; [vm_compute; tauto|lia].
Qed.

(** ** Further facts about the classifier *)

Module SectionFacts.
Import JS Classifier SortFacts GroupFacts.

Section SortMore.
Context {A : Type} (cmp : A -> A -> Z).

(** A list in ascending order is left as it is. *)
Lemma sort_sorted_id l :
  StronglySorted (le_by cmp) l -> sort cmp l = l.
Proof.
  induction 1 as [|x l Hs IH Hall]; [done|].
  simpl. fold (sort cmp l). rewrite IH.
  destruct l as [|y l']; [done|]. simpl.
  apply Forall_cons in Hall as [Hxy _]. unfold le_by in Hxy.
  by rewrite (proj2 (Z.leb_le _ _) Hxy).
Qed.

Lemma sort_idem l : consistent cmp -> sort cmp (sort cmp l) = sort cmp l.
Proof. intros Hc. by apply sort_sorted_id, sort_sorted. Qed.

(** Elements that tie with each other stay in their order. *)
Lemma filter_insert_tied (P : A -> Prop) `{!forall a, Decision (P a)} x l :
  (forall a b, P a -> P b -> cmp a b = 0) ->
  filter P (insert cmp x l) = filter P (x :: l).
Proof.
  intros Ht. induction l as [|y l IH]; [done|]. simpl.
  destruct (Z.leb_spec (cmp x y) 0) as [|Hgt]; [done|].
  rewrite (filter_cons P y), IH, !(filter_cons P x), (filter_cons P y).
  destruct (decide (P x)) as [Hx|], (decide (P y)) as [Hy|]; try done.
  specialize (Ht x y Hx Hy). lia.
Qed.

Lemma filter_sort_tied (P : A -> Prop) `{!forall a, Decision (P a)} l :
  (forall a b, P a -> P b -> cmp a b = 0) ->
  filter P (sort cmp l) = filter P l.
Proof.
  intros Ht. induction l as [|x l IH]; [done|].
  simpl. fold (sort cmp l). rewrite filter_insert_tied by done.
  by rewrite !filter_cons, IH.
Qed.
End SortMore.

Lemma sections_nonempty cmp l :
  Forall (fun s => files s <> []) (sortFilesIntoSections cmp l).
Proof.
  rewrite sortFilesIntoSections_eq. apply Forall_app. split.
  - apply Forall_forall. intros s (p & -> & Hp)%list_elem_of_fmap. simpl.
    intros E%sort_nil_inv. apply elem_of_prefixes in Hp as (f & Hf & Ht).
    assert (Hin : f ∈ members (Some p) l) by (by apply elem_of_members).
    rewrite E in Hin. by apply elem_of_nil in Hin.
  - destruct (decide (members None l = [])) as [|Hne]; constructor; [|constructor].
    simpl. by intros E%sort_nil_inv.
Qed.

Lemma two_lower_length p : two_lower p -> String.length p = 2%nat.
Proof. by intros (a & b & -> & _). Qed.

Lemma prefixes_two_lower l p : p ∈ prefixes l -> two_lower p.
Proof.
  intros (f & _ & Ht)%elem_of_prefixes. by eapply target_two_lower.
Qed.

Lemma upper_char_inj a b :
  is_lower a = true -> is_lower b = true ->
  upper_char a = upper_char b -> a = b.
Proof.
  unfold upper_char. intros Ha Hb. rewrite Ha, Hb. intros E.
  unfold is_lower in Ha, Hb.
  apply andb_true_iff in Ha as [Ha1 Ha2]. apply andb_true_iff in Hb as [Hb1 Hb2].
  apply N.leb_le in Ha1, Ha2, Hb1, Hb2.
  assert (E' : N_of_ascii (ascii_of_N (N_of_ascii a - 32))
               = N_of_ascii (ascii_of_N (N_of_ascii b - 32))) by (by rewrite E).
  rewrite !N_ascii_embedding in E' by lia.
  rewrite <- (ascii_N_embedding a), <- (ascii_N_embedding b). f_equal. lia.
Qed.

Lemma toUpperCase_inj p q :
  two_lower p -> two_lower q -> toUpperCase p = toUpperCase q -> p = q.
Proof.
  intros (a & b & -> & Ha & Hb) (c & d & -> & Hc & Hd). simpl.
  intros [= E1 E2]. apply upper_char_inj in E1, E2; try done. by subst.
Qed.

Lemma toUpperCase_length p : String.length (toUpperCase p) = String.length p.
Proof. induction p; simpl; by f_equal. Qed.

Lemma match_prefix_Some k p :
  match_prefix k = Some p <->
  two_lower p /\ exists rest, k = (p ++ "-" ++ rest)%string.
Proof.
  split.
  - intros H. split; [by eapply match_prefix_two_lower|].
    unfold match_prefix in H. destruct k as [|a [|b [|c k]]]; try done.
    destruct (is_lower a && is_lower b) eqn:E1; simpl in H; [|done].
    destruct (Ascii.eqb_spec c "-") as [->|]; [|done].
    injection H as <-. by exists k.
  - intros [(a & b & -> & Ha & Hb) [rest ->]]. simpl. by rewrite Ha, Hb.
Qed.

Lemma members_app g l1 l2 : members g (l1 ++ l2) = members g l1 ++ members g l2.
Proof. unfold members. apply filter_app. Qed.

Lemma members_all g l :
  Forall (fun f => target f = Some g) l -> members g l = l.
Proof.
  induction 1 as [|f l Hf _ IH]; [done|].
  by rewrite members_cons, decide_True, IH.
Qed.

Lemma members_none g l :
  Forall (fun f => target f <> Some g) l -> members g l = [].
Proof.
  induction 1 as [|f l Hf _ IH]; [done|].
  by rewrite members_cons, decide_False, IH.
Qed.

Lemma sorted_group_target cmp g l :
  Forall (fun f => target f = Some g) (sort (by_key cmp) (members g l)).
Proof.
  apply Forall_forall. intros f Hf%elem_of_sort%elem_of_members. tauto.
Qed.

Lemma members_sorted_same cmp g l :
  members g (sort (by_key cmp) (members g l)) = sort (by_key cmp) (members g l).
Proof. apply members_all, sorted_group_target. Qed.

Lemma members_sorted_other cmp g g' l :
  g <> g' -> members g (sort (by_key cmp) (members g' l)) = [].
Proof.
  intros Hne. apply members_none. eapply Forall_impl; [apply sorted_group_target|].
  simpl. intros f -> [= ?]. done.
Qed.

Lemma members_prefix_sections cmp g l ps :
  NoDup ps ->
  members g (concat (map (fun p => sort (by_key cmp) (members (Some p) l)) ps))
  = match g with
    | Some p => if decide (p ∈ ps) then sort (by_key cmp) (members (Some p) l) else []
    | None => []
    end.
Proof.
  induction 1 as [|q ps Hq Hnd IH]; simpl.
  { by destruct g. }
  rewrite members_app, IH. destruct g as [p|].
  - destruct (decide (p = q)) as [->|Hne].
    + rewrite members_sorted_same.
      rewrite (decide_False (P := q ∈ ps)) by done.
      rewrite decide_True by left. by rewrite app_nil_r.
    + rewrite members_sorted_other by congruence. simpl.
      destruct (decide (p ∈ ps)) as [Hin|Hnin].
      * by rewrite decide_True by (by right).
      * rewrite decide_False; [done|]. intros [->|?]%elem_of_cons; done.
  - by rewrite members_sorted_other.
Qed.

Lemma members_empty_outside l p :
  p ∉ prefixes l -> members (Some p) l = [].
Proof.
  intros Hn. destruct (members (Some p) l) as [|f fs] eqn:E; [done|]. exfalso.
  apply Hn. assert (Hf : f ∈ members (Some p) l) by (rewrite E; left).
  apply elem_of_members in Hf as [? ?]. apply elem_of_prefixes. eauto.
Qed.

(** What a group of the flattened output holds. *)
Lemma members_flat cmp g l :
  members g (section_members (sortFilesIntoSections cmp l)) =
  sort (by_key cmp) (members g l).
Proof.
  rewrite sortFilesIntoSections_eq. unfold section_members.
  rewrite map_app, concat_app, members_app, map_map. simpl.
  rewrite (members_prefix_sections cmp g l _ (NoDup_prefixes l)).
  destruct (decide (members None l = [])) as [E|]; simpl; rewrite ?app_nil_r.
  - destruct g as [p|]; [|by rewrite E].
    destruct (decide (p ∈ prefixes l)) as [|Hn]; [done|].
    by rewrite (members_empty_outside l p Hn).
  - destruct g as [p|].
    + rewrite members_sorted_other by done. rewrite app_nil_r.
      destruct (decide (p ∈ prefixes l)) as [|Hn]; [done|].
      by rewrite (members_empty_outside l p Hn).
    + by rewrite members_sorted_same.
Qed.

Lemma prefixes_ext l l' :
  (forall p, (exists f, f ∈ l /\ target f = Some (Some p)) <->
             (exists f, f ∈ l' /\ target f = Some (Some p))) ->
  prefixes l = prefixes l'.
Proof.
  intros H. unfold prefixes.
  apply (sort_perm_eq _ defaultCompare_consistent).
  { intros a b _ _. apply defaultCompare_zero. }
  apply NoDup_Permutation; try apply NoDup_fst_map_to_list.
  intros p. pose proof (elem_of_prefixes l p) as H1.
  pose proof (elem_of_prefixes l' p) as H2.
  unfold prefixes in H1, H2. rewrite elem_of_sort in H1, H2.
  by rewrite H1, H2.
Qed.

Lemma no_sections_without_keys cmp l :
  Forall (fun f => has_key f = false) l -> sortFilesIntoSections cmp l = [].
Proof.
  intros Hall. pose proof (section_members_perm cmp l) as Hp.
  assert (E : filter (fun f => is_Some (target f)) l = []).
  { clear Hp. induction Hall as [|f l Hf _ IH]; [done|].
    rewrite filter_cons, decide_False; [done|].
    rewrite target_has_key. congruence. }
  rewrite E in Hp. apply Permutation_nil_r in Hp.
  pose proof (sections_nonempty cmp l) as Hne.
  destruct (sortFilesIntoSections cmp l) as [|s out]; [done|].
  apply Forall_cons in Hne as [Hs _]. unfold section_members in Hp.
  simpl in Hp. apply app_eq_nil in Hp as [? _]. done.
Qed.




End SectionFacts.

Import SectionFacts.

(** ** The section classifier: further properties *)

(** X1.  No section is empty, no two sections have the same prefix, and no
    two have the same heading. *)
Theorem sections_nonempty_and_distinct (cmp : string -> string -> Z)
    (l : list S3Object) :
  Forall (fun s => files s <> []) (sortFilesIntoSections cmp l) /\
  NoDup (map prefix (sortFilesIntoSections cmp l)) /\
  NoDup (map displayName (sortFilesIntoSections cmp l)).
Proof.
  split; [apply sections_nonempty|].
  rewrite sortFilesIntoSections_eq, !map_app, !map_map. simpl.
  rewrite map_id. split.
  - apply NoDup_app. split; [apply NoDup_prefixes|]. split.
    + intros p Hp%prefixes_two_lower%two_lower_length Hin.
      destruct (decide _); simpl in Hin; [by apply elem_of_nil in Hin|].
      apply list_elem_of_singleton in Hin as ->. done.
    + destruct (decide _); [constructor|apply NoDup_singleton].
  - apply NoDup_app. split; [|split].
    + apply NoDup_fmap_2_strong; [|apply NoDup_prefixes].
      intros p q Hp%prefixes_two_lower Hq%prefixes_two_lower.
      by apply toUpperCase_inj.
    + intros d (p & -> & Hp%prefixes_two_lower%two_lower_length)%list_elem_of_fmap Hin.
      destruct (decide _); simpl in Hin; [by apply elem_of_nil in Hin|].
      apply list_elem_of_singleton in Hin.
      pose proof (toUpperCase_length p) as Hl. rewrite Hin, Hp in Hl. done.
    + destruct (decide _); [constructor|apply NoDup_singleton].
Qed.

(** X2.  A record is shown in the section named [q] exactly when it is in
    the input with a non-empty key and [q] is the two letters its key
    starts with, before a hyphen, or [q] is "unsorted" and the key does
    not start so. *)
Theorem section_holds_the_keys_of_its_prefix (cmp : string -> string -> Z)
    (l : list S3Object) (f : S3Object) (q : string) :
  (exists s, s ∈ sortFilesIntoSections cmp l /\ prefix s = q /\ f ∈ files s)
  <->
  f ∈ l /\
  exists k, Key f = Some k /\ k <> "" /\
    ((two_lower q /\ exists rest, k = (q ++ "-" ++ rest)%string) \/
     (q = "unsorted" /\
      ~ exists p rest, two_lower p /\ k = (p ++ "-" ++ rest)%string)).
Proof.
  assert (Ht : forall g, target f = Some g <->
            exists k, Key f = Some k /\ k <> "" /\ match_prefix k = g).
  { intros g. unfold target. destruct (Key f) as [k|].
    - destruct (truthy k) eqn:E.
      + split.
        * intros [= <-]. exists k. split_and!; try done. by intros ->.
        * by intros (k' & [= <-] & _ & <-).
      + split; [done|]. intros (k' & [= <-] & Hne & _). by destruct k.
    - split; [done|]. by intros (k' & ? & _). }
  assert (Hn : forall k, match_prefix k = None <->
            ~ exists p rest, two_lower p /\ k = (p ++ "-" ++ rest)%string).
  { intros k. split.
    - intros E (p & rest & Hp & ->).
      assert (match_prefix (p ++ "-" ++ rest) = Some p)
        by (apply match_prefix_Some; eauto). congruence.
    - intros H. destruct (match_prefix k) as [p|] eqn:E; [|done].
      exfalso. apply H. apply match_prefix_Some in E as [? [rest ->]]. eauto. }
  rewrite sortFilesIntoSections_eq. split.
  - intros (s & Hs & <- & Hf). apply elem_of_app in Hs as [Hs|Hs].
    + apply list_elem_of_fmap in Hs as (p & -> & Hp). simpl in *.
      apply elem_of_sort, elem_of_members in Hf as [Hf Hin]. split; [done|].
      apply Ht in Hf as (k & Hk & Hne & Hm). exists k. split_and!; try done.
      left. by apply match_prefix_Some.
    + destruct (decide _); [by apply elem_of_nil in Hs|].
      apply list_elem_of_singleton in Hs as ->. simpl in *.
      apply elem_of_sort, elem_of_members in Hf as [Hf Hin]. split; [done|].
      apply Ht in Hf as (k & Hk & Hne & Hm). exists k. split_and!; try done.
      right. split; [done|]. by apply Hn.
  - intros (Hin & k & Hk & Hne & [[Hq Hr]|[-> Hno]]).
    + assert (Hf : target f = Some (Some q)).
      { apply Ht. exists k. split_and!; try done. by apply match_prefix_Some. }
      exists (section_for cmp l q). split_and!; try done.
      * apply elem_of_app. left. apply list_elem_of_fmap. exists q. split; [done|].
        apply elem_of_prefixes. eauto.
      * simpl. by apply elem_of_sort, elem_of_members.
    + assert (Hf : target f = Some None).
      { apply Ht. exists k. split_and!; try done. by apply Hn. }
      assert (Hm : f ∈ members None l) by (by apply elem_of_members).
      exists (unsorted_section cmp l). split_and!; try done.
      * apply elem_of_app. right. destruct (decide (members None l = [])) as [E|].
        { rewrite E in Hm. by apply elem_of_nil in Hm. }
        by apply list_elem_of_singleton.
      * simpl. by apply elem_of_sort.
Qed.

(** X3.  Classifying the records that are shown, in the order in which
    they are shown, gives the sections again. *)
Theorem classifying_the_output_again (cmp : string -> string -> Z)
    (l : list S3Object) :
  consistent cmp ->
  sortFilesIntoSections cmp (section_members (sortFilesIntoSections cmp l))
  = sortFilesIntoSections cmp l.
Proof.
  intros Hc. set (out := sortFilesIntoSections cmp l).
  rewrite (sortFilesIntoSections_eq cmp (section_members out)).
  unfold out at 3. rewrite (sortFilesIntoSections_eq cmp l).
  assert (Hs : forall g, sort (by_key cmp) (members g (section_members out))
                         = sort (by_key cmp) (members g l)).
  { intros g. unfold out. rewrite members_flat.
    apply sort_idem. by apply by_key_consistent. }
  assert (Hp : prefixes (section_members out) = prefixes l).
  { apply prefixes_ext. intros p. split; intros (f & Hf & Ht); exists f.
    - split; [|done]. unfold out in Hf.
      rewrite section_members_perm in Hf. apply list_elem_of_filter in Hf. tauto.
    - split; [|done]. unfold out. rewrite section_members_perm.
      apply list_elem_of_filter. split; [by rewrite Ht|done]. }
  rewrite Hp. f_equal.
  - apply map_ext. intros p. unfold section_for. by rewrite Hs.
  - unfold unsorted_section. rewrite Hs. unfold out. rewrite members_flat.
    destruct (decide (members None l = [])) as [E|Hne].
    + rewrite E. done.
    + case_decide as E'; [|done]. by apply sort_nil_inv in E'.
Qed.

Lemma classifying_the_output_again_witness :
  sortFilesIntoSections defaultCompare
    (section_members (sortFilesIntoSections defaultCompare
       [obj "zz-b"; obj "b"; obj "zz-a"; obj "a"]))
  = sortFilesIntoSections defaultCompare
      [obj "zz-b"; obj "b"; obj "zz-a"; obj "a"].
Proof.
  apply (classifying_the_output_again defaultCompare
           [obj "zz-b"; obj "b"; obj "zz-a"; obj "a"]).
  exact defaultCompare_consistent.
Defined.

(** X4.  Records with one and the same key stay in the order of the input:
    in the section that shows them they are the input's records of that
    key, in the input's order. *)
Theorem same_key_keeps_input_order (cmp : string -> string -> Z)
    (l : list S3Object) (s : FileSection) (f : S3Object) (k : string) :
  cmp k k = 0 ->
  s ∈ sortFilesIntoSections cmp l -> f ∈ files s -> Key f = Some k ->
  filter (fun x => Key x = Some k) (files s)
  = filter (fun x => Key x = Some k) l.
Proof.
  intros Hk Hs Hf HK. rewrite sortFilesIntoSections_eq in Hs.
  assert (Hg : exists g, files s = sort (by_key cmp) (members g l)).
  { apply elem_of_app in Hs as [(p & -> & _)%list_elem_of_fmap|Hs].
    - by exists (Some p).
    - destruct (decide _); [by apply elem_of_nil in Hs|].
      apply list_elem_of_singleton in Hs as ->. by exists None. }
  destruct Hg as [g Hg]. rewrite Hg in Hf |- *.
  apply elem_of_sort, elem_of_members in Hf as [Ht Hin].
  assert (Hne : truthy k = true).
  { unfold target in Ht. rewrite HK in Ht. by destruct (truthy k). }
  rewrite filter_sort_tied.
  - unfold members. rewrite list_filter_filter. apply list_filter_iff.
    intros x. split; [tauto|]. intros Hx. split; [done|].
    unfold target in Ht |- *. rewrite HK in Ht. by rewrite Hx.
  - intros a b Ha Hb. unfold by_key, key_or_empty. by rewrite Ha, Hb, Hne.
Qed.

Lemma same_key_keeps_input_order_witness :
  filter (fun x => Key x = Some "en-a")
    [ {| Key := Some "en-a"; Size := Some 2; LastModified := None |};
      {| Key := Some "en-a"; Size := Some 1; LastModified := None |};
      obj "en-b" ]
  = filter (fun x => Key x = Some "en-a")
    [ obj "en-b";
      {| Key := Some "en-a"; Size := Some 2; LastModified := None |};
      {| Key := Some "en-a"; Size := Some 1; LastModified := None |} ].
Proof.
  apply (same_key_keeps_input_order defaultCompare
    [ obj "en-b";
      {| Key := Some "en-a"; Size := Some 2; LastModified := None |};
      {| Key := Some "en-a"; Size := Some 1; LastModified := None |} ]
    {| prefix := "en"; displayName := "EN";
       files := [ {| Key := Some "en-a"; Size := Some 2; LastModified := None |};
                  {| Key := Some "en-a"; Size := Some 1; LastModified := None |};
                  obj "en-b" ] |}
    {| Key := Some "en-a"; Size := Some 2; LastModified := None |} "en-a").
  - reflexivity.
  - vm_compute. left.
  - left.
  - reflexivity.
Defined.

(** X5.  There is no section at all exactly when no record has a
    non-empty key; in particular the empty listing gives no section. *)
Theorem no_section_iff_no_key (cmp : string -> string -> Z)
    (l : list S3Object) :
  sortFilesIntoSections cmp l = [] <-> Forall (fun f => has_key f = false) l.
Proof.
  pose proof (section_members_perm cmp l) as Hp. split.
  - intros E. rewrite E in Hp. symmetry in Hp. apply Permutation_nil_r in Hp.
    apply Forall_forall. intros f Hf.
    destruct (has_key f) eqn:Hk; [|done].
    assert (Hin : f ∈ filter (fun f => is_Some (target f)) l).
    { apply list_elem_of_filter. split; [by apply target_has_key|done]. }
    rewrite Hp in Hin. by apply elem_of_nil in Hin.
  - apply no_sections_without_keys.
Qed.



(** ** Further facts about the download handler *)

Module StepFacts.
Import JS Classifier Double DoubleFacts Downloader DownloadFacts Steps.

Lemma middle_steps h key : middle h key = steps h key.
Proof.
  unfold middle, steps, try_block, generateDownloadUrl.
  destruct (s3Client h); [|done].
  destruct (getSignedUrl h key) as [url|]; [|done].
  destruct (String.eqb_spec url "#") as [->|Hne]; [done|].
  destruct (fetch h url) as [r|]; [|done].
  unfold after_fetch, streams, body_fails, body_bytes, blob.
  destruct (ok r); [|done]. simpl.
  destruct (body r) as [[cs fin]|]; simpl.
  - destruct (total_of r) as [total|]; [|by destruct fin].
    destruct (0 <? total); [|by destruct fin].
    rewrite read_loop_eq. destruct fin; simpl;
      by rewrite <- ?app_assoc.
  - by destruct (total_of r).
Qed.

Lemma handleDownload_steps st h key :
  key ∉ downloadingFiles st ->
  handleDownload st h key =
  [DownloadingAdd key; ProgressSet key 0] ++ steps h key ++
  [DownloadingDelete key; ProgressDelete key].
Proof.
  intros Hk. rewrite (handleDownload_shape st h key Hk). by rewrite middle_steps.
Qed.

Lemma handleDownload_busy st h key :
  key ∈ downloadingFiles st -> handleDownload st h key = [].
Proof. intros Hk. unfold handleDownload. by rewrite decide_True. Qed.

Lemma in_loop_effects e key total loaded cs :
  In e (loop_effects key total loaded cs) ->
  e = ReaderRead \/ exists n, e = ProgressSet key n.
Proof.
  unfold loop_effects. intros (x & _ & Hx)%in_flat_map.
  destruct Hx as [<-|[<-|[]]]; eauto.
Qed.

(** Between its ends the handler writes progress for its key and nothing
    else. *)
Lemma steps_effects h key :
  Forall (fun e => effect_key e = None \/ exists n, e = ProgressSet key n)
         (steps h key).
Proof.
  apply Forall_forall. intros e He%list_elem_of_In. revert He.
  unfold steps, after_fetch.
  repeat case_match; simpl; rewrite ?in_app_iff; simpl;
    intros Hin; repeat (destruct Hin as [Hin|Hin]); subst; simpl; eauto;
    try (apply in_loop_effects in Hin as [->|[n ->]]; simpl; eauto); done.
Qed.

Lemma not_in_loop_effects e key total loaded cs :
  e <> ReaderRead -> (forall n, e <> ProgressSet key n) ->
  ~ In e (loop_effects key total loaded cs).
Proof. intros H1 H2 [->|[n ->]]%in_loop_effects; [done|by eapply H2]. Qed.

(** State effects of a trace that only writes progress for [key]. *)
Lemma run_quiet key es st :
  Forall (fun e => effect_key e = None \/ exists n, e = ProgressSet key n) es ->
  downloadingFiles (run es st) = downloadingFiles st /\
  downloadProgress (run es st) =
    match last (progress_values key es) with
    | Some n => <[key := n]> (downloadProgress st)
    | None => downloadProgress st
    end.
Proof.
  intros H. revert st. induction H as [|e es He _ IH]; intros st; [done|].
  change (run (e :: es) st) with (run es (apply_effect e st)).
  destruct (IH (apply_effect e st)) as [IH1 IH2]. rewrite IH1, IH2. clear IH IH1 IH2.
  destruct He as [He|[n ->]].
  - assert (E : apply_effect e st = st) by (by destruct e).
    rewrite E. split; [done|].
    assert (E' : progress_values key (e :: es) = progress_values key es)
      by (by destruct e).
    by rewrite E'.
  - simpl. rewrite String.eqb_refl. split; [done|]. rewrite last_cons.
    destruct (last (progress_values key es)) as [m|]; [|done].
    by rewrite insert_insert_eq.
Qed.

Lemma run_foreign k es st :
  Forall (fun e => effect_key e <> Some k) es ->
  view k (run es st) = view k st.
Proof.
  intros H. revert st. induction H as [|e es He _ IH]; intros st; [done|].
  change (run (e :: es) st) with (run es (apply_effect e st)).
  by rewrite IH, view_foreign.
Qed.

Lemma trace_keys st h key :
  Forall (fun e => effect_key e = None \/ effect_key e = Some key)
         (handleDownload st h key).
Proof.
  destruct (decide (key ∈ downloadingFiles st)) as [Hk|Hk].
  { rewrite handleDownload_busy by done. constructor. }
  rewrite (handleDownload_steps st h key Hk).
  repeat (apply Forall_cons; split; [by right|]).
  apply Forall_app. split.
  - eapply Forall_impl; [apply steps_effects|]. simpl.
    intros e [?|[n ->]]; [by left|by right].
  - repeat (apply Forall_cons; split; [by right|]). constructor.
Qed.

(** A trace cut before its last two steps. *)
Lemma cut_before_end {A} (a : list A) (x y : A) pre post :
  a ++ [x; y] = pre ++ post -> (2 <= length post)%nat ->
  exists post', post = post' ++ [x; y] /\ a = pre ++ post'.
Proof.
  intros E Hl.
  rewrite <- (take_drop (length post - 2) post) in E.
  rewrite (app_assoc pre) in E.
  apply app_inj_2 in E as [E1 E2].
  - exists (take (length post - 2) post). split; [|done].
    by rewrite E2, take_drop.
  - rewrite length_drop. simpl. lia.
Qed.

Lemma Forall_prefix_of {A} (P : A -> Prop) l pre post :
  l = pre ++ post -> Forall P l -> Forall P pre.
Proof. intros -> H. by apply Forall_app in H as [? _]. Qed.

Lemma in_trace_middle e st h key :
  effect_key e = None ->
  In e (handleDownload st h key) <->
  (key ∉ downloadingFiles st) /\ In e (steps h key).
Proof.
  intros He. destruct (decide (key ∈ downloadingFiles st)) as [Hk|Hk].
  { rewrite handleDownload_busy by done. simpl. tauto. }
  rewrite (handleDownload_steps st h key Hk). simpl. rewrite in_app_iff. simpl.
  split.
  - intros [<-|[<-|[H|[<-|[<-|[]]]]]]; done.
  - intros [_ H]. auto.
Qed.

Lemma in_stream_part e r key :
  e <> ReaderRead -> e <> ResponseBlob -> (forall n, e <> ProgressSet key n) ->
  ~ In e match streams r with
         | Some (s, total) =>
             loop_effects key (of_Z total) (of_Z 0) (chunks s) ++ [ReaderRead]
         | None => [ResponseBlob]
         end.
Proof.
  intros H1 H2 H3. destruct (streams r) as [[s total]|]; simpl.
  - rewrite in_app_iff. simpl. intros [H|[H|[]]]; [|done].
    by apply not_in_loop_effects in H.
  - intros [H|[]]. done.
Qed.

Lemma in_after_fetch_LinkClick name content key r :
  In (LinkClick name content) (after_fetch key r) <->
  name = key /\ ok r = true /\ body_fails r = false /\ content = body_bytes r.
Proof.
  unfold after_fetch. destruct (ok r).
  - rewrite in_app_iff. destruct (body_fails r); simpl; split.
    + intros [H|[H|[]]]; [|done]. by apply in_stream_part in H.
    + by intros (_ & _ & ? & _).
    + intros [H|[[= <- <-]|[]]]; [|done]. by apply in_stream_part in H.
    + intros (-> & _ & _ & ->). right. by left.
  - simpl. split; [by intros [?|[]]|by intros (_ & ? & _)].
Qed.

Lemma in_after_fetch_Alert k key r :
  In (Alert k) (after_fetch key r) <->
  k = key /\ (ok r = false \/ body_fails r = true).
Proof.
  unfold after_fetch. destruct (ok r).
  - rewrite in_app_iff. destruct (body_fails r); simpl; split.
    + intros [H|[[= <-]|[]]]; [|by auto]. by apply in_stream_part in H.
    + intros [-> _]. right. by left.
    + intros [H|[H|[]]]; [|done]. by apply in_stream_part in H.
    + by intros (_ & [?|?]).
  - simpl. split; [intros [[= <-]|[]]; auto|intros [-> _]; by left].
Qed.

Lemma in_steps_LinkClick name content h key :
  In (LinkClick name content) (steps h key) <->
  name = key /\
  exists url r,
    s3Client h = true /\ getSignedUrl h key = Some url /\ url <> "#" /\
    fetch h url = Some r /\ ok r = true /\ body_fails r = false /\
    content = body_bytes r.
Proof.
  unfold steps. destruct (s3Client h) eqn:Hc.
  2:{ split; [by intros []|]. by intros (_ & ? & ? & ? & _). }
  destruct (getSignedUrl h key) as [url|] eqn:Hu.
  2:{ split; [by intros [?|[]]|]. by intros (_ & ? & ? & _ & ? & _). }
  destruct (String.eqb_spec url "#") as [->|Hne].
  { split; [by intros [?|[]]|]. intros (_ & ? & ? & _ & ? & ? & _). congruence. }
  destruct (fetch h url) as [r|] eqn:Hf.
  2:{ split; [by intros [?|[?|[?|[]]]]|].
      intros (_ & ? & ? & _ & ? & _ & ? & _). congruence. }
  simpl. rewrite in_after_fetch_LinkClick. split.
  - intros [?|[?|(-> & ? & ? & ->)]]; try done.
    split; [done|]. exists url, r. split_and!; done.
  - intros (-> & url' & r' & _ & E1 & _ & E2 & ? & ? & ->).
    assert (url' = url) as -> by congruence.
    assert (r' = r) as -> by congruence. right. right. done.
Qed.

Lemma in_steps_Alert k h key :
  In (Alert k) (steps h key) <->
  k = key /\
  exists url,
    s3Client h = true /\ getSignedUrl h key = Some url /\ url <> "#" /\
    match fetch h url with
    | Some r => ok r = false \/ body_fails r = true
    | None => True
    end.
Proof.
  unfold steps. destruct (s3Client h) eqn:Hc.
  2:{ split; [by intros []|]. by intros (_ & ? & ? & _). }
  destruct (getSignedUrl h key) as [url|] eqn:Hu.
  2:{ split; [by intros [?|[]]|]. by intros (_ & ? & _ & ? & _). }
  destruct (String.eqb_spec url "#") as [->|Hne].
  { split; [by intros [?|[]]|]. intros (_ & ? & _ & ? & ? & _). congruence. }
  simpl. split.
  - intros [?|[?|H]]; try done.
    destruct (fetch h url) as [r|] eqn:Hf.
    + apply in_after_fetch_Alert in H as [-> H]. split; [done|].
      exists url. rewrite Hf. done.
    + destruct H as [[= <-]|[]]. split; [done|]. exists url. by rewrite Hf.
  - intros (-> & url' & _ & E1 & _ & H).
    assert (url' = url) as -> by congruence. right. right.
    destruct (fetch h url) as [r|]; [|by left].
    by apply in_after_fetch_Alert.
Qed.

Lemma in_after_fetch_request e key r :
  (exists k, e = GetSignedUrl k) \/ (exists u, e = Fetch u) ->
  ~ In e (after_fetch key r).
Proof.
  intros He. unfold after_fetch. destruct (ok r).
  - rewrite in_app_iff. intros [H|H].
    + apply in_stream_part in H; [done|..];
        destruct He as [[? ->]|[? ->]]; done.
    + destruct (body_fails r), H as [<-|[]], He as [[? ?]|[? ?]]; done.
  - intros [<-|[]]. destruct He as [[? ?]|[? ?]]; done.
Qed.

End StepFacts.

Import Steps StepFacts.

(** ** The download handler: further properties *)

(** X7.  When there is no client, or signing fails, the handler fetches
    nothing, saves nothing and shows no alert; it marks the key and clears
    it again. *)
Theorem signing_failure_is_silent (st : AppState) (h : Host) (key : string) :
  key ∉ downloadingFiles st ->
  s3Client h = false \/ getSignedUrl h key = None \/
    getSignedUrl h key = Some "#" ->
  handleDownload st h key =
  [DownloadingAdd key; ProgressSet key 0] ++
  (if s3Client h then [GetSignedUrl key] else []) ++
  [DownloadingDelete key; ProgressDelete key].
Proof.
  intros Hk H. rewrite (handleDownload_steps st h key Hk). unfold steps.
  destruct H as [->|[H|H]]; [done|..]; destruct (s3Client h); try done;
    by rewrite H.
Qed.

Lemma signing_failure_is_silent_witness :
  handleDownload idle
    {| s3Client := true; getSignedUrl := fun _ => None; fetch := fun _ => None |}
    "k"
  = [DownloadingAdd "k"; ProgressSet "k" 0; GetSignedUrl "k";
     DownloadingDelete "k"; ProgressDelete "k"].
Proof.
  apply (signing_failure_is_silent idle
    {| s3Client := true; getSignedUrl := fun _ => None; fetch := fun _ => None |}
    "k").
  - apply not_elem_of_empty.
  - right. left. reflexivity.
Defined.

(** X8.  A file is saved exactly when the URL was signed, the response is
    a success and its body could be read to the end; the file then has
    the key as its name and all bytes of the body, in order, as its
    content. *)
Theorem saved_file_is_the_whole_body (st : AppState) (h : Host)
    (key name : string) (content : list byte) :
  In (LinkClick name content) (handleDownload st h key) <->
  (key ∉ downloadingFiles st) /\ name = key /\
  exists url r,
    s3Client h = true /\ getSignedUrl h key = Some url /\ url <> "#" /\
    fetch h url = Some r /\ ok r = true /\ body_fails r = false /\
    content = body_bytes r.
Proof.
  rewrite in_trace_middle by done. rewrite in_steps_LinkClick. tauto.
Qed.

(** X9.  An alert is shown exactly when the URL was signed and then the
    request is rejected, or the response is not a success, or reading the
    body rejects. *)
Theorem alert_iff_failure_after_signing (st : AppState) (h : Host)
    (key k : string) :
  In (Alert k) (handleDownload st h key) <->
  (key ∉ downloadingFiles st) /\ k = key /\
  exists url,
    s3Client h = true /\ getSignedUrl h key = Some url /\ url <> "#" /\
    match fetch h url with
    | Some r => ok r = false \/ body_fails r = true
    | None => True
    end.
Proof.
  rewrite in_trace_middle by done. rewrite in_steps_Alert. tauto.
Qed.

(** X10.  When the request is rejected or the response is not a success,
    the body is never read: the handler alerts and clears the key. *)
Theorem failed_response_is_not_read (st : AppState) (h : Host)
    (key url : string) :
  key ∉ downloadingFiles st ->
  s3Client h = true -> getSignedUrl h key = Some url -> url <> "#" ->
  fetch h url = None \/ (exists r, fetch h url = Some r /\ ok r = false) ->
  handleDownload st h key =
  [DownloadingAdd key; ProgressSet key 0; GetSignedUrl key; Fetch url;
   Alert key; DownloadingDelete key; ProgressDelete key].
Proof.
  intros Hk Hc Hu Hne Hf. rewrite (handleDownload_steps st h key Hk).
  unfold steps. rewrite Hc, Hu. destruct (String.eqb_spec url "#"); [done|].
  destruct Hf as [->|(r & -> & Hok)]; [done|].
  unfold after_fetch. by rewrite Hok.
Qed.

Lemma failed_response_is_not_read_witness :
  handleDownload idle
    (serving {| ok := false; status := 403; content_length := Some "8";
                body := Some {| chunks := [bytes 8]; ending := EndOfStream |} |})
    "k"
  = [DownloadingAdd "k"; ProgressSet "k" 0; GetSignedUrl "k";
     Fetch "https://sos/k"; Alert "k"; DownloadingDelete "k";
     ProgressDelete "k"].
Proof.
  apply (failed_response_is_not_read idle _ "k" "https://sos/k").
  - apply not_elem_of_empty.
  - reflexivity.
  - reflexivity.
  - discriminate.
  - right. eexists. split; reflexivity.
Defined.

(** X11.  When a read rejects in the middle of the stream, progress has
    been written for every chunk that arrived, nothing is saved, and the
    handler alerts and clears the key. *)
Theorem stream_error_saves_nothing (st : AppState) (h : Host)
    (key url : string) (r : Response) (s : ReadableStream) (total : Z) :
  key ∉ downloadingFiles st ->
  s3Client h = true -> getSignedUrl h key = Some url -> url <> "#" ->
  fetch h url = Some r -> ok r = true ->
  body r = Some s -> ending s = StreamError ->
  total_of r = Some total -> 0 < total ->
  handleDownload st h key =
    [DownloadingAdd key; ProgressSet key 0; GetSignedUrl key; Fetch url] ++
    flat_map
      (fun loaded =>
         [ReaderRead; ProgressSet key (progress_of loaded (of_Z total))])
      (running (of_Z 0) (chunks s)) ++
    [ReaderRead; Alert key; DownloadingDelete key; ProgressDelete key].
Proof.
  intros Hk Hc Hu Hne Hf Hok Hb He Ht Hpos.
  rewrite (handleDownload_steps st h key Hk).
  unfold steps. rewrite Hc, Hu. destruct (String.eqb_spec url "#"); [done|].
  rewrite Hf. unfold after_fetch, streams, body_fails.
  rewrite Hok, Hb, Ht, He. destruct (Z.ltb_spec 0 total); [|lia].
  simpl. unfold loop_effects. by rewrite <- !app_assoc.
Qed.

Lemma stream_error_saves_nothing_witness :
  handleDownload idle
    (serving {| ok := true; status := 200; content_length := Some "8";
                body := Some {| chunks := [bytes 4]; ending := StreamError |} |})
    "k"
  = [DownloadingAdd "k"; ProgressSet "k" 0; GetSignedUrl "k";
     Fetch "https://sos/k"; ReaderRead; ProgressSet "k" 50; ReaderRead;
     Alert "k"; DownloadingDelete "k"; ProgressDelete "k"].
Proof.
  rewrite (stream_error_saves_nothing idle _ "k" "https://sos/k"
             {| ok := true; status := 200; content_length := Some "8";
                body := Some {| chunks := [bytes 4]; ending := StreamError |} |}
             {| chunks := [bytes 4]; ending := StreamError |} 8).
  - reflexivity.
  - apply not_elem_of_empty.
  - reflexivity.
  - reflexivity.
  - discriminate.
  - reflexivity.
  - reflexivity.
  - reflexivity.
  - reflexivity.
  - reflexivity.
  - reflexivity.
Defined.

(** X13.  At no point of a download does the handler change what the
    state records for another key. *)
Theorem other_keys_are_untouched (st st0 : AppState) (h : Host)
    (key k : string) (pre post : list effect) :
  handleDownload st h key = pre ++ post -> k <> key ->
  (k ∈ downloadingFiles (run pre st0) <-> k ∈ downloadingFiles st0) /\
  downloadProgress (run pre st0) !! k = downloadProgress st0 !! k.
Proof.
  intros E Hne.
  assert (Hv : view k (run pre st0) = view k st0).
  { apply run_foreign. pose proof (trace_keys st h key) as H.
    eapply Forall_impl; [exact (Forall_prefix_of _ _ _ _ E H)|].
    simpl. intros e [He | He]; rewrite He; congruence. }
  unfold view in Hv. injection Hv as H1 H2. split; [|done].
  rewrite <- (bool_decide_eq_true (k ∈ downloadingFiles (run pre st0))), H1.
  apply bool_decide_eq_true.
Qed.

Lemma other_keys_are_untouched_witness :
  downloadProgress
    (run [DownloadingAdd "k"; ProgressSet "k" 0; GetSignedUrl "k";
          Fetch "https://sos/k"; ReaderRead; ProgressSet "k" 63]
         {| downloadingFiles := {["j"]}; downloadProgress := {["j" := 40]} |})
    !! "j"
  = Some 40.
Proof.
  destruct (other_keys_are_untouched idle
           {| downloadingFiles := {["j"]}; downloadProgress := {["j" := 40]} |}
           (serving (streamed "8" [bytes 5; bytes 3])) "k" "j"
           [DownloadingAdd "k"; ProgressSet "k" 0; GetSignedUrl "k";
            Fetch "https://sos/k"; ReaderRead; ProgressSet "k" 63]
           [ReaderRead; ProgressSet "k" 100; ReaderRead; LinkClick "k" (bytes 8);
            DownloadingDelete "k"; ProgressDelete "k"]) as [_ H].
  - reflexivity.
  - discriminate.
  - rewrite H. reflexivity.
Defined.

(** X14.  A download that starts from a state without an entry for its
    key leaves the state, when it has finished, exactly as it found it. *)
Theorem finished_download_restores_the_state (st : AppState) (h : Host)
    (key : string) :
  key ∉ downloadingFiles st -> downloadProgress st !! key = None ->
  run (handleDownload st h key) st = st.
Proof.
  intros Hk Hp. rewrite (handleDownload_steps st h key Hk).
  rewrite !run_app.
  set (st1 := run [DownloadingAdd key; ProgressSet key 0] st).
  destruct (run_quiet key (steps h key) st1 (steps_effects h key)) as [H1 H2].
  set (st2 := run (steps h key) st1) in *.
  change (run [DownloadingDelete key; ProgressDelete key] st2)
    with {| downloadingFiles := downloadingFiles st2 ∖ {[key]};
            downloadProgress := delete key (downloadProgress st2) |}.
  rewrite H1, H2. unfold st1, run. simpl. destruct st as [dl pr]. simpl in *.
  f_equal.
  - apply set_eq. intros x.
    rewrite elem_of_difference, elem_of_union, elem_of_singleton.
    split; [by intros [[?|?] ?]|]. intros Hx. split; [by left|by intros ->].
  - destruct (last (progress_values key (steps h key))); simpl;
      rewrite ?delete_insert_eq; by apply delete_id.
Qed.

Lemma finished_download_restores_the_state_witness :
  run (handleDownload idle (serving (streamed "8" [bytes 5; bytes 3])) "k") idle
  = idle.
Proof.
  apply (finished_download_restores_the_state idle
           (serving (streamed "8" [bytes 5; bytes 3])) "k").
  - apply not_elem_of_empty.
  - reflexivity.
Defined.

(** X15.  From its first update until its last two the handler keeps the
    key marked as downloading, so a second call made in that time does
    nothing. *)
Theorem key_is_marked_while_downloading (st : AppState) (h h' : Host)
    (key : string) (pre post : list effect) :
  handleDownload st h key = pre ++ post ->
  pre <> [] -> (2 <= length post)%nat ->
  key ∈ downloadingFiles (run pre st) /\
  handleDownload (run pre st) h' key = [].
Proof.
  intros E Hpre Hpost.
  assert (Hin : key ∈ downloadingFiles (run pre st));
    [|split; [done|by apply handleDownload_busy]].
  destruct (decide (key ∈ downloadingFiles st)) as [Hk|Hk].
  { rewrite handleDownload_busy in E by done.
    symmetry in E. by apply app_eq_nil in E as [? _]. }
  rewrite (handleDownload_steps st h key Hk) in E.
  rewrite app_assoc in E.
  apply cut_before_end in E as (post' & -> & E); [|done].
  destruct pre as [|e pre]; [done|]. simpl in E. injection E as <- E.
  change (run (DownloadingAdd key :: pre) st)
    with (run pre (apply_effect (DownloadingAdd key) st)).
  assert (Hq : Forall (fun e => effect_key e = None \/ exists n, e = ProgressSet key n)
                      pre).
  { apply (Forall_prefix_of _ (ProgressSet key 0 :: steps h key) pre post' E).
    constructor; [right; by eexists|apply steps_effects]. }
  destruct (run_quiet key pre (apply_effect (DownloadingAdd key) st) Hq) as [-> _].
  simpl.
  apply elem_of_union. right. by apply elem_of_singleton.
Qed.

Lemma key_is_marked_while_downloading_witness :
  handleDownload
    (run [DownloadingAdd "k"; ProgressSet "k" 0; GetSignedUrl "k"] idle)
    (serving (streamed "8" [bytes 5; bytes 3])) "k" = [].
Proof.
  apply (key_is_marked_while_downloading idle
           (serving (streamed "8" [bytes 5; bytes 3]))
           (serving (streamed "8" [bytes 5; bytes 3])) "k"
           [DownloadingAdd "k"; ProgressSet "k" 0; GetSignedUrl "k"]
           [Fetch "https://sos/k"; ReaderRead; ProgressSet "k" 63; ReaderRead;
            ProgressSet "k" 100; ReaderRead; LinkClick "k" (bytes 8);
            DownloadingDelete "k"; ProgressDelete "k"]).
  - reflexivity.
  - discriminate.
  - simpl. lia.
Defined.

(** X16.  While the handler runs, after its first two updates and before
    its last two, the button of the key is disabled and shows the value
    written last; when the handler has finished the button is enabled and
    reads Download again. *)
Theorem button_follows_the_download (st : AppState) (h : Host) (key : string)
    (file : S3Object) (pre post : list effect) :
  Key file = Some key ->
  handleDownload st h key = pre ++ post ->
  (2 <= length pre)%nat -> (2 <= length post)%nat ->
  (exists n, last (progress_values key pre) = Some n /\
             download_button (run pre st) file =
             {| disabled := true; text := TextPercent n |}) /\
  download_button (run (pre ++ post) st) file =
  {| disabled := false; text := TextDownload |}.
Proof.
  intros HK E Hpre Hpost.
  assert (Hkey : key_or_empty file = key).
  { unfold key_or_empty. rewrite HK. by destruct key. }
  destruct (decide (key ∈ downloadingFiles st)) as [Hk|Hk].
  { rewrite handleDownload_busy in E by done.
    symmetry in E. apply app_eq_nil in E as [-> _]. simpl in Hpre. lia. }
  split.
  - rewrite (handleDownload_steps st h key Hk) in E. rewrite app_assoc in E.
    apply cut_before_end in E as (post' & -> & E); [|done].
    destruct pre as [|e1 [|e2 pre]]; simpl in Hpre; try lia.
    simpl in E. injection E as <- <- E.
    assert (Hq : Forall (fun e => effect_key e = None \/
                                  exists n, e = ProgressSet key n) pre)
      by (apply (Forall_prefix_of _ _ pre post' E), steps_effects).
    change (run (DownloadingAdd key :: ProgressSet key 0 :: pre) st)
      with (run pre (run [DownloadingAdd key; ProgressSet key 0] st)).
    destruct (run_quiet key pre (run [DownloadingAdd key; ProgressSet key 0] st) Hq)
      as [H1 H2].
    simpl progress_values. rewrite String.eqb_refl, last_cons.
    exists (default 0 (last (progress_values key pre))).
    split; [by destruct (last (progress_values key pre))|].
    unfold download_button, shown_progress. rewrite Hkey, H1, H2.
    unfold run at 1 2. simpl.
    rewrite bool_decide_eq_true_2
      by (apply elem_of_union; right; by apply elem_of_singleton).
    f_equal. f_equal.
    destruct (last (progress_values key pre)) as [n|]; simpl;
      rewrite lookup_insert_eq; [by destruct (Z.eqb_spec n 0)|done].
  - rewrite <- E. rewrite (handleDownload_steps st h key Hk), !run_app.
    unfold download_button. rewrite Hkey. unfold run at 1. simpl.
    rewrite bool_decide_eq_false_2; [done|].
    rewrite elem_of_difference, elem_of_singleton. tauto.
Qed.

Lemma button_follows_the_download_witness :
  download_button
    (run [DownloadingAdd "k"; ProgressSet "k" 0; GetSignedUrl "k";
          Fetch "https://sos/k"; ReaderRead; ProgressSet "k" 63] idle)
    (obj "k")
  = {| disabled := true; text := TextPercent 63 |}.
Proof.
  destruct (button_follows_the_download idle
           (serving (streamed "8" [bytes 5; bytes 3])) "k" (obj "k")
           [DownloadingAdd "k"; ProgressSet "k" 0; GetSignedUrl "k";
            Fetch "https://sos/k"; ReaderRead; ProgressSet "k" 63]
           [ReaderRead; ProgressSet "k" 100; ReaderRead; LinkClick "k" (bytes 8);
            DownloadingDelete "k"; ProgressDelete "k"]) as [(n & Hn & Hb) _].
  - reflexivity.
  - reflexivity.
  - simpl. lia.
  - simpl. lia.
  - injection Hn as <-. exact Hb.
Defined.

(** X12.  The handler asks for a signed URL of its own key, once, when
    there is a client, and fetches nothing but the URL it was given. *)
Theorem fetch_goes_to_the_signed_url (st : AppState) (h : Host)
    (key k u : string) :
  (In (GetSignedUrl k) (handleDownload st h key) <->
   (key ∉ downloadingFiles st) /\ s3Client h = true /\ k = key) /\
  (In (Fetch u) (handleDownload st h key) <->
   (key ∉ downloadingFiles st) /\ s3Client h = true /\
   getSignedUrl h key = Some u /\ u <> "#").
Proof.
  rewrite !in_trace_middle by done. unfold steps.
  destruct (s3Client h); [|simpl; intuition discriminate].
  destruct (getSignedUrl h key) as [url|]; [|simpl; intuition congruence].
  destruct (String.eqb_spec url "#") as [->|Hne]; [simpl; intuition congruence|].
  assert (Hr : forall e, (exists k, e = GetSignedUrl k) \/ (exists u, e = Fetch u) ->
             ~ In e match fetch h url with
                    | Some r => after_fetch key r
                    | None => [Alert key]
                    end).
  { intros e He. destruct (fetch h url) as [r|].
    - by apply in_after_fetch_request.
    - intros [<-|[]]. destruct He as [[? ?]|[? ?]]; done. }
  simpl. split; split.
  - intros [Hk [[= <-]|[?|H]]]; try done. apply Hr in H; [done|]. left. by eexists.
  - intros (? & _ & ->). split; [done|]. by left.
  - intros [Hk [?|[[= <-]|H]]]; try done. apply Hr in H; [done|]. right. by eexists.
  - intros (? & _ & [= ->] & _). split; [done|]. right. by left.
Qed.

(** ** Facts about the page *)

Module PageFacts.
Import JS Classifier.

Lemma initClient_missing env :
  Page.absent (Page.VITE_EXOSCALE_ACCESS_KEY env) = true \/
  Page.absent (Page.VITE_EXOSCALE_SECRET_KEY env) = true ->
  Page.initClient env =
  [Page.SetError "Please configure your Exoscale credentials in .env file";
   Page.SetLoading false].
Proof.
  intros H. unfold Page.initClient.
  by destruct H as [-> | ->]; rewrite ?orb_true_r.
Qed.

Lemma initClient_present env :
  Page.absent (Page.VITE_EXOSCALE_ACCESS_KEY env) = false ->
  Page.absent (Page.VITE_EXOSCALE_SECRET_KEY env) = false ->
  exists c, Page.initClient env = [Page.SetS3Client c].
Proof. intros H1 H2. unfold Page.initClient. rewrite H1, H2. by eexists. Qed.

(** Until its last step every step leaves [loading] set. *)
Lemma loading_until_last ss st :
  Page.loading st = true ->
  Forall (fun s => s <> Page.SetLoading false) ss ->
  Page.loading (Page.run_steps ss st) = true.
Proof.
  intros Hl H. revert st Hl. induction H as [|x ss Hx _ IH]; intros st Hl; [done|].
  apply IH. destruct x as [| |[]| | |]; done.
Qed.

End PageFacts.

Import PageFacts.

(** ** The page: properties *)

(** X17.  Without an access key or without a secret key (undefined or
    empty) no client is created and no listing request is sent; the page
    ends on the error screen with the configuration message. *)
Theorem no_listing_without_credentials (cmp : string -> string -> Z)
    (env : Page.Env) (a : Page.answer) :
  Page.absent (Page.VITE_EXOSCALE_ACCESS_KEY env) = true \/
  Page.absent (Page.VITE_EXOSCALE_SECRET_KEY env) = true ->
  Forall (fun s => Page.sends_request s = false) (Page.mount cmp env a) /\
  Page.s3Client (Page.run_steps (Page.mount cmp env a) Page.initial) = None /\
  Page.render env (Page.run_steps (Page.mount cmp env a) Page.initial) =
  Page.ErrorScreen "Please configure your Exoscale credentials in .env file".
Proof.
  intros H. unfold Page.mount. rewrite (initClient_missing env H). simpl.
  split; [by repeat constructor|done].
Qed.

Lemma no_listing_without_credentials_witness :
  Page.render (Page.env_of (Some "") (Some "s") (Some "isha2"))
    (Page.run_steps (Page.mount defaultCompare
                 (Page.env_of (Some "") (Some "s") (Some "isha2"))
                 (Page.Listed (Some [obj "en-a"])))
              Page.initial)
  = Page.ErrorScreen "Please configure your Exoscale credentials in .env file".
Proof.
  apply (no_listing_without_credentials defaultCompare
           (Page.env_of (Some "") (Some "s") (Some "isha2"))
           (Page.Listed (Some [obj "en-a"]))).
  left. reflexivity.
Defined.

(** X18.  With both keys present exactly one listing request is sent,
    also when region, endpoint or bucket name are undefined.  When it has
    settled the page is no longer loading and the sections are the
    classification of the files: of the listed records (none when the
    answer has no Contents), or, after a rejection, of the empty list,
    with an error that starts with Failed to load files. *)
Theorem listing_settles (cmp : string -> string -> Z) (env : Page.Env)
    (a : Page.answer) :
  Page.absent (Page.VITE_EXOSCALE_ACCESS_KEY env) = false ->
  Page.absent (Page.VITE_EXOSCALE_SECRET_KEY env) = false ->
  let st := Page.run_steps (Page.mount cmp env a) Page.initial in
  length (filter (fun s => Page.sends_request s = true) (Page.mount cmp env a)) = 1%nat /\
  Page.loading st = false /\
  Page.fileSections st = sortFilesIntoSections cmp (Page.files st) /\
  match a with
  | Page.Listed Contents =>
      Page.files st = default [] Contents /\ Page.error st = None
  | Page.Rejected err =>
      Page.files st = [] /\
      Page.error st =
        Some ("Failed to load files: " ++ Page.errorMessage env err)%string
  end.
Proof.
  intros H1 H2. destruct (initClient_present env H1 H2) as [c Hc].
  unfold Page.mount. rewrite Hc. simpl. unfold Page.listOnClient. simpl.
  destruct a as [[l|]|err]; simpl; done.
Qed.

Lemma listing_settles_witness :
  Page.fileSections
    (Page.run_steps (Page.mount defaultCompare
                 (Page.env_of (Some "a") (Some "s") None)
                 (Page.Listed (Some [obj "en-b"; obj "en-a"])))
              Page.initial)
  = sortFilesIntoSections defaultCompare [obj "en-b"; obj "en-a"].
Proof.
  destruct (listing_settles defaultCompare
           (Page.env_of (Some "a") (Some "s") None)
           (Page.Listed (Some [obj "en-b"; obj "en-a"]))) as (_ & _ & H & _).
  - reflexivity.
  - reflexivity.
  - exact H.
Defined.

(** X19.  Whatever the environment and the answer, the loading screen
    stays until the last step has run: neither files without their
    sections nor an error is rendered before. *)
Theorem loading_screen_until_settled (cmp : string -> string -> Z)
    (env : Page.Env) (a : Page.answer) (pre post : list Page.step) :
  Page.mount cmp env a = pre ++ post -> post <> [] ->
  Page.render env (Page.run_steps pre Page.initial) = Page.LoadingScreen.
Proof.
  intros E Hpost.
  assert (Hl : Page.loading (Page.run_steps pre Page.initial) = true);
    [|by unfold Page.render; rewrite Hl].
  assert (Hm : exists body, Page.mount cmp env a = body ++ [Page.SetLoading false] /\
              Forall (fun s => s <> Page.SetLoading false) body).
  { unfold Page.mount, Page.initClient.
    destruct (_ || _); simpl.
    - exists [Page.SetError "Please configure your Exoscale credentials in .env file"].
      split; [done|]. by repeat constructor.
    - unfold Page.listOnClient, Page.loadFiles. simpl.
      destruct a as [c|err]; simpl;
        [eexists [_; _; _; _; _]|eexists [_; _; _; _]];
        (split; [reflexivity|]); by repeat constructor. }
  destruct Hm as (body & Hm & Hb). rewrite Hm in E.
  destruct (@exists_last _ post Hpost) as (post' & x & ->).
  rewrite app_assoc in E. apply app_inj_tail in E as [-> _].
  apply loading_until_last; [done|]. by apply Forall_app in Hb as [? _].
Qed.

Lemma loading_screen_until_settled_witness :
  Page.render (Page.env_of (Some "a") (Some "s") None)
    (Page.run_steps
       [Page.SetS3Client
          {| Page.region := None; Page.endpoint := None;
             Page.accessKeyId := Some "a"; Page.secretAccessKey := Some "s";
             Page.forcePathStyle := true |};
        Page.SetLoading true; Page.SendListObjectsV2 None;
        Page.SetFiles [obj "en-a"]]
       Page.initial)
  = Page.LoadingScreen.
Proof.
  apply (loading_screen_until_settled defaultCompare
           (Page.env_of (Some "a") (Some "s") None)
           (Page.Listed (Some [obj "en-a"]))
           _
           [Page.SetFileSections (sortFilesIntoSections defaultCompare [obj "en-a"]);
            Page.SetLoading false]).
  - reflexivity.
  - discriminate.
Defined.

(** X20.  After a listing that succeeded the page shows the number of
    listed records and their sections; the message that no files were
    found appears exactly for the empty listing, so a listing whose
    records all lack a key shows its count and no section at all. *)
Theorem listing_is_rendered (cmp : string -> string -> Z) (env : Page.Env)
    (l : list S3Object) :
  Page.absent (Page.VITE_EXOSCALE_ACCESS_KEY env) = false ->
  Page.absent (Page.VITE_EXOSCALE_SECRET_KEY env) = false ->
  Page.render env
    (Page.run_steps (Page.mount cmp env (Page.Listed (Some l))) Page.initial)
  = Page.FilesScreen (Page.VITE_EXOSCALE_BUCKET_NAME env) (length l)
      (match l with
       | [] => None
       | _ => Some (sortFilesIntoSections cmp l)
       end) /\
  (l <> [] -> Forall (fun f => has_key f = false) l ->
   sortFilesIntoSections cmp l = []).
Proof.
  intros H1 H2. destruct (initClient_present env H1 H2) as [c Hc]. split.
  - unfold Page.mount. rewrite Hc. simpl. unfold Page.listOnClient. simpl.
    unfold Page.render. simpl. by destruct l.
  - intros _. apply SectionFacts.no_sections_without_keys.
Qed.

Lemma listing_is_rendered_witness :
  Page.render (Page.env_of (Some "a") (Some "s") (Some "isha2"))
    (Page.run_steps (Page.mount defaultCompare
                 (Page.env_of (Some "a") (Some "s") (Some "isha2"))
                 (Page.Listed (Some [ {| Key := None; Size := Some 3;
                                         LastModified := None |} ])))
              Page.initial)
  = Page.FilesScreen (Some "isha2") 1 (Some []).
Proof.
  destruct (listing_is_rendered defaultCompare
              (Page.env_of (Some "a") (Some "s") (Some "isha2"))
              [ {| Key := None; Size := Some 3; LastModified := None |} ])
    as [H _].
  - reflexivity.
  - reflexivity.
  - exact H.
Defined.
